(** * Lib/asyncio/asyncgraph.py: the logical call graph and its dot rendering

    A shallow embedding of [get_async_graph] and [async_graph_to_dot].
    Python objects with reference identity (graph nodes) live in an explicit
    store; the store is a list and a reference is an index into it.  Sets of
    nodes are [gset]s, the dictionary [awaitable_to_head_node] and the
    dictionary [node_to_id] are [gmap]s. *)

From Stdlib Require Import Ascii.
From stdpp Require Import gmap strings list fin_maps pretty.

#[local] Set Warnings "-clear-no-such-hyp".

Module AsyncGraph.

(** ** Execution frames (types.FrameType)

    A frame has an identity, a textual form and a nullable link [f_back] to
    the frame that called it.  [frame is other] compares identities. *)

#[warnings="-register-all"]
Inductive Frame : Type :=
  mkFrame (f_id : nat) (f_str : string) (f_back : option Frame).

Definition f_id (f : Frame) : nat := match f with mkFrame i _ _ => i end.
Definition f_str (f : Frame) : string := match f with mkFrame _ s _ => s end.
Definition f_back (f : Frame) : option Frame :=
  match f with mkFrame _ _ b => b end.

Definition frame_is (f g : Frame) : bool := bool_decide (f_id f = f_id g).

(** The frames met by following [f_back] until it is [None], innermost
    first. *)
Fixpoint frame_chain (f : Frame) : list Frame :=
  match f with
  | mkFrame _ _ None => [f]
  | mkFrame _ _ (Some b) => f :: frame_chain b
  end.

(** ** Awaitables and nodes

    An awaitable (Task, Future, ...) is an opaque object of the runtime; it is
    named by its identity.  A node reference is an index into the store. *)

Abbreviation Awaitable := nat (only parsing).
Abbreviation NodeRef := nat (only parsing).
Abbreviation Loop := nat (only parsing).

(** The three concrete node classes.  [AsyncGraphNodeError] keeps the
    [_awaiters] it was built with. *)
Inductive NodeKind : Type :=
  | AsyncGraphNodeAsyncGraphAwaitable (awaitable : Awaitable)
  | AsyncGraphNodeFrame (frame : Frame)
  | AsyncGraphNodeError (text : string) (_awaiters : list Awaitable).

(** [AsyncGraphNode.__init__] gives every node its own [awaited_by] set. *)
Record AsyncGraphNode : Type := mkNode {
  kind : NodeKind;
  awaited_by : gset NodeRef
}.

Abbreviation Heap := (list AsyncGraphNode) (only parsing).

(** What a call of the abstract method [makeAsyncGraphNodes] constructs:
    fresh nodes, listed with the tail node it returns first.  [sg_head] is
    the position of the head node it returns in that list (0 when head and
    tail are the same node; a position past the end stands for the last
    node).  The [awaited_by] sets of the description hold positions in the
    same list. *)
Record Subgraph : Type := mkSubgraph {
  sg_tail : AsyncGraphNode;
  sg_rest : list AsyncGraphNode;
  sg_head : nat
}.

Definition sg_nodes (sg : Subgraph) : list AsyncGraphNode :=
  sg_tail sg :: sg_rest sg.

(** What the module takes from the rest of asyncio: [events.get_running_loop],
    the hook [_current_task] assigned in tasks.py, the awaiter set and the
    abstract method [makeAsyncGraphNodes] of every awaitable, [str] of an
    awaitable, and [get_coro().cr_frame] of a task.  An awaiter set is given
    in the order in which it is iterated. *)
Record Runtime : Type := mkRuntime {
  get_running_loop : option Loop;
  _current_task : Loop -> option Awaitable;
  get_awaiters : Awaitable -> list Awaitable;
  makeAsyncGraphNodes : Awaitable -> Subgraph;
  awaitable_str : Awaitable -> string;
  cr_frame : Awaitable -> option Frame
}.

(** ** The store *)

(** Constructing a node: a fresh reference, an empty [awaited_by]. *)
Definition new_node (h : Heap) (k : NodeKind) : Heap * NodeRef :=
  (h ++ [mkNode k ∅], length h).

(** [node.awaited_by.add(child)] *)
Definition add_edge (child : NodeRef) (n : AsyncGraphNode) : AsyncGraphNode :=
  mkNode (kind n) (awaited_by n ∪ {[child]}).

Definition add_awaited_by (h : Heap) (node child : NodeRef) : Heap :=
  alter (add_edge child) node h.

Definition awaited_by_of (h : Heap) (node : NodeRef) : gset NodeRef :=
  match h !! node with
  | Some n => awaited_by n
  | None => ∅
  end.

(** [get_awaiters] of the three node classes. *)
Definition kind_get_awaiters (rt : Runtime) (k : NodeKind) : list Awaitable :=
  match k with
  | AsyncGraphNodeAsyncGraphAwaitable a => get_awaiters rt a
  | AsyncGraphNodeFrame _ => []
  | AsyncGraphNodeError _ aws => aws
  end.

Definition node_get_awaiters (rt : Runtime) (h : Heap) (node : NodeRef)
  : list Awaitable :=
  match h !! node with
  | Some n => kind_get_awaiters rt (kind n)
  | None => []
  end.

(** Placing a constructed sub-graph in the store: its nodes get the next
    free references, and the call returns the references of the tail node
    and of the head node, in that order. *)
Definition relocate (base : nat) (n : AsyncGraphNode) : AsyncGraphNode :=
  mkNode (kind n) (set_map (Nat.add base) (awaited_by n)).

Definition call_makeAsyncGraphNodes (rt : Runtime) (h : Heap) (a : Awaitable)
  : Heap * NodeRef * NodeRef :=
  let sg := makeAsyncGraphNodes rt a in
  (h ++ (relocate (length h) <$> sg_nodes sg),
   length h,
   length h + (sg_head sg `min` length (sg_rest sg))).

(** ** get_async_graph

    The call either returns, or stops on the failed [assert] of line 171.
    The [while node_q] loop is given a bound on its rounds; [OutOfFuel] is
    the answer when the bound is reached with [node_q] not yet empty. *)

Inductive Outcome (A : Type) : Type :=
  | Returned (a : A)
  | AssertionError
  | OutOfFuel.
Arguments Returned {A} a.
Arguments AssertionError {A}.
Arguments OutOfFuel {A}.

(** [loop is None or _current_task(loop) is None] is the [None] case. *)
Definition current_task (rt : Runtime) : option Awaitable :=
  match get_running_loop rt with
  | None => None
  | Some loop => _current_task rt loop
  end.

(** *** No current task: the conventional stack walk (lines 133-141) *)

Fixpoint fallback_walk (frame : Frame) (h : Heap) (tail_node : NodeRef)
  : Heap :=
  match frame with
  | mkFrame _ _ None => h
  | mkFrame _ _ (Some back) =>
      let '(h1, new) := new_node h (AsyncGraphNodeFrame back) in
      fallback_walk back (add_awaited_by h1 tail_node new) new
  end.

Definition fallback (frame : Frame) : Heap * option NodeRef :=
  let '(h, head_node) := new_node [] (AsyncGraphNodeFrame frame) in
  (fallback_walk frame h head_node, Some head_node).

(** *** The worklist over dependent awaitables (lines 151-169)

    [node_q] is used as a stack: its first element here is the last element
    of the Python list. *)
Record DrainState : Type := mkDrain {
  d_heap : Heap;
  node_q : list NodeRef;
  terminal_async_nodes : gset NodeRef;
  awaitable_to_head_node : gmap Awaitable NodeRef
}.

(** One round of [for child_awaitable in awaiters]. *)
Definition visit_awaiter (rt : Runtime) (node : NodeRef)
    (st : DrainState) (child_awaitable : Awaitable) : DrainState :=
  match awaitable_to_head_node st !! child_awaitable with
  | Some known =>
      mkDrain (add_awaited_by (d_heap st) node known)
              (node_q st) (terminal_async_nodes st)
              (awaitable_to_head_node st)
  | None =>
      let '(h1, child_node, child_head_node) :=
        call_makeAsyncGraphNodes rt (d_heap st) child_awaitable in
      mkDrain (add_awaited_by h1 node child_head_node)
              (child_node :: node_q st) (terminal_async_nodes st)
              (<[child_awaitable := child_node]> (awaitable_to_head_node st))
  end.

(** The body of [while node_q], [node] being the popped element and [q] the
    rest. *)
Definition drain_step (rt : Runtime) (node : NodeRef) (q : list NodeRef)
    (st : DrainState) : DrainState :=
  let awaiters := node_get_awaiters rt (d_heap st) node in
  let terminal :=
    if decide (length awaiters = 0)
    then terminal_async_nodes st ∪ {[node]}
    else terminal_async_nodes st in
  foldl (visit_awaiter rt node)
        (mkDrain (d_heap st) q terminal (awaitable_to_head_node st))
        awaiters.

Fixpoint drain (rt : Runtime) (fuel : nat) (st : DrainState)
  : option DrainState :=
  match node_q st with
  | [] => Some st
  | node :: q =>
      match fuel with
      | 0 => None
      | S fuel' => drain rt fuel' (drain_step rt node q st)
      end
  end.

(** Lines 146-153. *)
Definition drain_init (rt : Runtime) (cur_task : Awaitable)
  : DrainState * NodeRef * NodeRef :=
  let '(h, task_node, task_head_node) :=
    call_makeAsyncGraphNodes rt [] cur_task in
  (mkDrain h [task_node] ∅ {[cur_task := task_head_node]},
   task_node, task_head_node).

(** *** The top of the graph (lines 176-194) *)

Definition exit_error_text : string :=
  "Could not find exit frame for current task".

Definition entry_error_text : string :=
  "Could not link current task to entry point.".

(** The state after the top of the graph is attached: the store, [head_node],
    [tail_node] and [frame]. *)
Record Grafted : Type := mkGrafted {
  g_heap : Heap;
  g_head_node : option NodeRef;
  g_tail_node : NodeRef;
  g_frame : option Frame
}.

(** [while frame is not cur_task_exit_frame] *)
Fixpoint top_loop (exit : Frame) (frame : Frame) (h : Heap)
    (head_node : option NodeRef) (tail_node : NodeRef) : Grafted :=
  if frame_is frame exit then mkGrafted h head_node tail_node (Some frame)
  else
    match frame with
    | mkFrame _ _ back =>
        let '(h1, new) := new_node h (AsyncGraphNodeFrame frame) in
        let '(h2, head') :=
          match head_node with
          | None => (h1, Some new)
          | Some _ => (add_awaited_by h1 tail_node new, head_node)
          end in
        match back with
        | None =>
            let '(h3, err) :=
              new_node h2 (AsyncGraphNodeError exit_error_text []) in
            mkGrafted (add_awaited_by h3 new err) head' err None
        | Some b => top_loop exit b h2 head' new
        end
    end.

Definition top_graft (h : Heap) (task_node task_head_node : NodeRef)
    (frame : Frame) : Grafted :=
  match kind <$> h !! task_head_node with
  | Some (AsyncGraphNodeFrame cur_task_exit_frame) =>
      let g := top_loop cur_task_exit_frame frame h None task_head_node in
      mkGrafted (add_awaited_by (g_heap g) (g_tail_node g) task_head_node)
                (g_head_node g) (g_tail_node g) (g_frame g)
  | _ => mkGrafted h (Some task_head_node) task_node (Some frame)
  end.

(** *** The bottom of the graph (lines 198-219) *)

(** [while frame:] looking for [cur_task_entry_frame]; the result is the
    value of [frame] after the loop. *)
Fixpoint entry_search (entry : option Frame) (frame : Frame)
  : option Frame :=
  match frame with
  | mkFrame _ _ back =>
      if bool_decide (f_id <$> entry = Some (f_id frame)) then back
      else match back with
           | None => None
           | Some b => entry_search entry b
           end
  end.

(** [while frame is not None] of the else branch. *)
Fixpoint bottom_loop (terminal : gset NodeRef) (frame : Frame) (h : Heap)
    (tail_node : option NodeRef) : Heap :=
  match frame with
  | mkFrame _ _ back =>
      let '(h1, new) := new_node h (AsyncGraphNodeFrame frame) in
      let h2 :=
        match tail_node with
        | None =>
            foldl (fun hh t => add_awaited_by hh t new) h1 (elements terminal)
        | Some t => add_awaited_by h1 t new
        end in
      match back with
      | None => h2
      | Some b => bottom_loop terminal b h2 (Some new)
      end
  end.

Definition bottom_graft (terminal : gset NodeRef) (h : Heap)
    (tail_node : NodeRef) (frame : option Frame) : Heap :=
  match frame with
  | None =>
      let '(h1, new) := new_node h (AsyncGraphNodeError entry_error_text []) in
      add_awaited_by h1 tail_node new
  | Some f => bottom_loop terminal f h None
  end.

(** *** The whole function *)

Definition cooperative (rt : Runtime) (fuel : nat) (frame : Frame)
    (cur_task : Awaitable) : Outcome (Heap * option NodeRef) :=
  let '(st0, task_node, task_head_node) := drain_init rt cur_task in
  match drain rt fuel st0 with
  | None => OutOfFuel
  | Some st =>
      if decide (0 < size (terminal_async_nodes st)) then
        let g := top_graft (d_heap st) task_node task_head_node frame in
        let frame' := g_frame g ≫= entry_search (cr_frame rt cur_task) in
        Returned (bottom_graft (terminal_async_nodes st) (g_heap g)
                               (g_tail_node g) frame',
                  g_head_node g)
      else AssertionError
  end.

(** [frame] is [sys._getframe(1)], the frame of the caller. *)
Definition get_async_graph (rt : Runtime) (fuel : nat) (frame : Frame)
  : Outcome (Heap * option NodeRef) :=
  match current_task rt with
  | None => Returned (fallback frame)
  | Some cur_task => cooperative rt fuel frame cur_task
  end.

(** ** async_graph_to_dot *)

(** The characters the rendering writes by code. *)
Definition newline : ascii := "010"%char.
Definition dquote : ascii := "034"%char.
Definition backslash : ascii := "092"%char.

(** [s.replace(old, new)] for a pattern [old] of one character. *)
Fixpoint replace (old : ascii) (new : string) (s : string) : string :=
  match s with
  | EmptyString => EmptyString
  | String c s' =>
      if Ascii.eqb c old then new +:+ replace old new s'
      else String c (replace old new s')
  end.

(** Line 249.  The first call replaces a newline by the two characters
    backslash and n.  The replacement of the second call is written as a
    backslash followed by a double quote inside a Python string literal,
    which denotes the double quote alone. *)
Definition escape_label (s : string) : string :=
  replace dquote (String dquote EmptyString)
    (replace newline (String backslash (String "n"%char EmptyString)) s).

(** [str(node)] for the three node classes. *)
Definition node_str (rt : Runtime) (h : Heap) (node : NodeRef) : string :=
  match kind <$> h !! node with
  | Some (AsyncGraphNodeAsyncGraphAwaitable a) => awaitable_str rt a
  | Some (AsyncGraphNodeFrame f) => f_str f
  | Some (AsyncGraphNodeError text _) => text
  | None => EmptyString
  end.

(** The two kinds of lines appended to [graph]. *)
Inductive DotLine : Type :=
  | VertexLine (id : nat) (label : string)
  | EdgeLine (src dst : nat).

Definition line_text (l : DotLine) : string :=
  match l with
  | VertexLine i label =>
      "  n" +:+ pretty i +:+ " [label=" +:+ String dquote label
        +:+ String dquote " shape=box];" +:+ String newline EmptyString
  | EdgeLine i j =>
      "n" +:+ pretty i +:+ " -> n" +:+ pretty j +:+ ";"
        +:+ String newline EmptyString
  end.

(** The local variables of [async_graph_to_dot]; [graph] is kept as the
    lines appended after the opening line, the last appended line last.
    [q] is used as a stack, like [node_q] above. *)
Record DotState : Type := mkDot {
  graph : list DotLine;
  seen : gset NodeRef;
  next_id : nat;
  node_to_id : gmap NodeRef nat;
  q : list NodeRef
}.

(** The inner function [node_id]; it assigns [next_id + 1] to a node it has
    not met. *)
Definition node_id (node : NodeRef) (st : DotState) : nat * DotState :=
  match node_to_id st !! node with
  | Some i => (i, st)
  | None =>
      let i := next_id st + 1 in
      (i, mkDot (graph st) (seen st) i (<[node := i]> (node_to_id st)) (q st))
  end.

Definition emit (l : DotLine) (st : DotState) : DotState :=
  mkDot (graph st ++ [l]) (seen st) (next_id st) (node_to_id st) (q st).

(** One round of [for child in node.awaited_by]. *)
Definition dot_child (node : NodeRef) (st : DotState) (child : NodeRef)
  : DotState :=
  let st1 :=
    mkDot (graph st) (seen st) (next_id st) (node_to_id st) (child :: q st) in
  let '(i, st2) := node_id node st1 in
  let '(j, st3) := node_id child st2 in
  emit (EdgeLine i j) st3.

(** The body of [while q] for a popped [node] that is not in [seen]; [st]
    already has the node popped. *)
Definition dot_visit (rt : Runtime) (h : Heap) (node : NodeRef)
    (st : DotState) : DotState :=
  let st1 :=
    mkDot (graph st) (seen st ∪ {[node]}) (next_id st) (node_to_id st)
          (q st) in
  let label := escape_label (node_str rt h node) in
  let '(i, st2) := node_id node st1 in
  foldl (dot_child node) (emit (VertexLine i label) st2)
        (elements (awaited_by_of h node)).

Fixpoint dot_loop (rt : Runtime) (h : Heap) (fuel : nat) (st : DotState)
  : option DotState :=
  match q st with
  | [] => Some st
  | node :: rest =>
      match fuel with
      | 0 => None
      | S fuel' =>
          let st' :=
            mkDot (graph st) (seen st) (next_id st) (node_to_id st) rest in
          if decide (node ∈ seen st) then dot_loop rt h fuel' st'
          else dot_loop rt h fuel' (dot_visit rt h node st')
      end
  end.

Definition dot_init (head : NodeRef) : DotState := mkDot [] ∅ 0 ∅ [head].

Definition document (lines : list DotLine) : string :=
  "digraph {" +:+ String newline EmptyString
    +:+ foldr (λ l acc, line_text l +:+ acc)
              ("}" +:+ String newline EmptyString) lines.

Definition async_graph_to_dot (rt : Runtime) (h : Heap) (fuel : nat)
    (head : NodeRef) : option string :=
  (λ st, document (graph st)) <$> dot_loop rt h fuel (dot_init head).

(** ** Reference shapes used by the statements *)

(** [y] is awaited by [x]; paths of such edges. *)
Definition edge (h : Heap) (x y : NodeRef) : Prop := y ∈ awaited_by_of h x.
Definition reachable (h : Heap) : NodeRef → NodeRef → Prop := rtc (edge h).

(** A straight line of frame nodes placed from reference [base] on: each
    node is awaited by the next one, the last by nothing. *)
Fixpoint chain_nodes (base : nat) (fs : list Frame) : list AsyncGraphNode :=
  match fs with
  | [] => []
  | f :: fs' =>
      mkNode (AsyncGraphNodeFrame f)
             (match fs' with [] => ∅ | _ => {[S base]} end)
        :: chain_nodes (S base) fs'
  end.

(** Frame nodes placed from [base] on, each awaited by whatever comes next
    in the store, the last one included. *)
Fixpoint linked_nodes (base : nat) (fs : list Frame) : list AsyncGraphNode :=
  match fs with
  | [] => []
  | f :: fs' =>
      mkNode (AsyncGraphNodeFrame f) {[S base]} :: linked_nodes (S base) fs'
  end.

(** The store after [new] is added to the [awaited_by] of each of [ts]. *)
Definition fan_in (h : Heap) (ts : list NodeRef) (new : NodeRef) : Heap :=
  foldl (λ hh t, add_awaited_by hh t new) h ts.

(** The entry frame of the task is none of the frames left to search. *)
Definition entry_not_found (entry frame : option Frame) : Prop :=
  ∀ f0 f, frame = Some f0 → f ∈ frame_chain f0 →
          f_id <$> entry ≠ Some (f_id f).

(** [h'] has every node of [h], of the same class and content. *)
Definition heap_ext (h h' : list AsyncGraphNode) : Prop :=
  length h ≤ length h'
  ∧ ∀ r, r < length h → kind <$> h' !! r = kind <$> h !! r.

(** The awaiters the worklist reads for an awaitable it has expanded: those
    of the node [makeAsyncGraphNodes] returned first. *)
Definition tail_awaiters (rt : Runtime) (a : nat) : list nat :=
  kind_get_awaiters rt (kind (sg_tail (makeAsyncGraphNodes rt a))).

(** A set of awaitables that contains every awaiter the worklist can read
    from an awaitable of the set. *)
Definition awaiters_closed (rt : Runtime) (U : gset nat) : Prop :=
  set_Forall (λ a, Forall (λ b, b ∈ U) (tail_awaiters rt a)) U.

(** Every reference held by the worklist state is a node of the store. *)
Definition drain_wf (st : DrainState) : Prop :=
  (∀ r, r ∈ node_q st → r < length (d_heap st))
  ∧ (∀ r, r ∈ terminal_async_nodes st → r < length (d_heap st)).

#[global] Instance awaiters_closed_dec (rt : Runtime) (U : gset nat) :
  Decision (awaiters_closed rt U).
Proof. unfold awaiters_closed. apply _. Defined.

(** Every awaiter that a node of [node_q] reports is in [U]. *)
Definition drain_closed (rt : Runtime) (U : gset nat) (st : DrainState)
  : Prop :=
  ∀ r b, r ∈ node_q st → b ∈ node_get_awaiters rt (d_heap st) r → b ∈ U.

(** What is left to do: the nodes of [node_q] and the awaitables of [U] not
    yet in the dictionary. *)
Definition drain_measure (U : gset nat) (st : DrainState) : nat :=
  length (node_q st) + size (U ∖ dom (awaitable_to_head_node st)).

(** [e] is the one sink that every node of [T] leads to. *)
Definition unique_sink_of (h : Heap) (T : gset NodeRef) (e : NodeRef)
  : Prop :=
  ∀ t, t ∈ T →
    reachable h t e
    ∧ ∀ s, reachable h t s → awaited_by_of h s = ∅ → s = e.

(** *** The rendering *)

(** The identifier a node has in [node_to_id]. *)
Definition ids (m : gmap NodeRef nat) (r : NodeRef) : nat :=
  default 0 (m !! r).

(** The lines of one visited node: its vertex line, then one edge line for
    each element of its [awaited_by]. *)
Definition node_lines (rt : Runtime) (h : Heap) (id : NodeRef → nat)
    (r : NodeRef) : list DotLine :=
  VertexLine (id r) (escape_label (node_str rt h r))
    :: ((λ c, EdgeLine (id r) (id c)) <$> elements (awaited_by_of h r)).

(** Identifiers are given once: no two nodes share one, and none is above
    [next_id]. *)
Definition ids_wf (st : DotState) : Prop :=
  (∀ r r' i, node_to_id st !! r = Some i → node_to_id st !! r' = Some i →
             r = r')
  ∧ (∀ r i, node_to_id st !! r = Some i → i ≤ next_id st).

(** The number of edges of the store, and the number of them that leave the
    nodes from reference [k] on that are not in [seen]. *)
Definition total_edges (h : Heap) : nat :=
  sum_list ((λ n, size (awaited_by n)) <$> h).

Fixpoint pending (k : nat) (h : Heap) (seen : gset NodeRef) : nat :=
  match h with
  | [] => 0
  | n :: h' =>
      (if decide (k ∈ seen) then 0 else size (awaited_by n))
      + pending (S k) h' seen
  end.

Definition dot_measure (h : Heap) (st : DotState) : nat :=
  length (q st) + pending 0 h (seen st).

(** What holds of the local variables each time [while q] is tested, for the
    list [order] of the nodes visited so far. *)
Record dot_inv (rt : Runtime) (h : Heap) (head : NodeRef) (st : DotState)
    (order : list NodeRef) : Prop := mkDotInv {
  inv_nodup : NoDup order;
  inv_seen : ∀ r, r ∈ order ↔ r ∈ seen st;
  inv_graph :
    graph st = order ≫= node_lines rt h (ids (node_to_id st));
  inv_ids_dom :
    ∀ r, r ∈ order →
      is_Some (node_to_id st !! r)
      ∧ ∀ c, c ∈ awaited_by_of h r → is_Some (node_to_id st !! c);
  inv_ids_wf : ids_wf st;
  inv_closed :
    ∀ r c, r ∈ seen st → c ∈ awaited_by_of h r → c ∈ seen st ∨ c ∈ q st;
  inv_reach : ∀ r, r ∈ seen st ∨ r ∈ q st → reachable h head r;
  inv_head : head ∈ seen st ∨ head ∈ q st
}.

(** *** Counting a character *)

Fixpoint occurrences (c : ascii) (s : string) : nat :=
  match s with
  | EmptyString => 0
  | String d s' => (if Ascii.eqb d c then 1 else 0) + occurrences c s'
  end.

(** *** Growth of the store *)

(** [h'] has every node of [h], of the same class, awaited by at least the
    nodes that await it in [h]. *)
Definition heap_grows (h h' : Heap) : Prop :=
  length h ≤ length h'
  ∧ ∀ r n, h !! r = Some n →
      ∃ n', h' !! r = Some n' ∧ kind n' = kind n
            ∧ awaited_by n ⊆ awaited_by n'.

(** *** What the worklist has expanded *)

(** The number of nodes one call of [makeAsyncGraphNodes] constructs. *)
Definition expansion_size (rt : Runtime) (a : Awaitable) : nat :=
  length (sg_nodes (makeAsyncGraphNodes rt a)).

(** [b] is an awaiter the worklist reads from the expansion of [a]. *)
Definition awaits (rt : Runtime) (a b : Awaitable) : Prop :=
  b ∈ tail_awaiters rt a.

(** What holds of the worklist state each time [while node_q] is tested;
    [tails] gives, for each awaitable of the dictionary, the tail node of
    its expansion, and [busy] holds the node whose awaiters are being
    visited. *)
Record owner_inv (rt : Runtime) (cur : Awaitable) (busy : gset NodeRef)
    (st : DrainState) (tails : gmap Awaitable NodeRef) : Prop := mkOwnerInv {
  own_dom : dom tails = dom (awaitable_to_head_node st);
  own_size :
    length (d_heap st)
    = sum_list_with (expansion_size rt)
        (elements (dom (awaitable_to_head_node st)));
  own_tail :
    ∀ a r, tails !! a = Some r →
      r < length (d_heap st)
      ∧ kind <$> d_heap st !! r
        = Some (kind (sg_tail (makeAsyncGraphNodes rt a)));
  own_q : ∀ r, r ∈ node_q st → ∃ a, tails !! a = Some r;
  own_done :
    ∀ a r b, tails !! a = Some r → r ∉ node_q st → r ∉ busy →
      b ∈ tail_awaiters rt a → b ∈ dom (awaitable_to_head_node st);
  own_reach :
    ∀ a, a ∈ dom (awaitable_to_head_node st) → rtc (awaits rt) cur a;
  own_nodup : NoDup (node_q st)
}.


(** *** The identifiers of the rendering *)

(** The identifiers given so far are 1, 2, ... up to [next_id]. *)
Definition ids_dense (st : DotState) : Prop :=
  next_id st = size (dom (node_to_id st))
  ∧ (∀ r i, node_to_id st !! r = Some i → 0 < i)
  ∧ (∀ i, 0 < i ≤ next_id st → ∃ r, node_to_id st !! r = Some i).

(** A node with an identifier is in [seen] or waiting in [q]. *)
Definition ids_known (st : DotState) : Prop :=
  ∀ r, is_Some (node_to_id st !! r) → r ∈ seen st ∨ r ∈ q st.

(** Once the loop has started, the head node has identifier 1 and the first
    line. *)
Definition head_first (rt : Runtime) (h : Heap) (head : NodeRef)
    (st : DotState) : Prop :=
  st = dot_init head
  ∨ (node_to_id st !! head = Some 1
     ∧ ∃ rest, graph st
               = VertexLine 1 (escape_label (node_str rt h head)) :: rest).

(** The lines of a straight line of frames whose first node has identifier
    [i]: for each frame its vertex line, followed by the edge line to the
    next one when there is a next one. *)
Fixpoint chain_lines (i : nat) (fs : list Frame) : list DotLine :=
  match fs with
  | [] => []
  | f :: fs' =>
      VertexLine i (escape_label (f_str f))
        :: match fs' with [] => [] | _ => [EdgeLine i (S i)] end
        ++ chain_lines (S i) fs'
  end.

(** ** Small programs *)

(** A stack: [print_graph] called from the coroutine of a task, run by the
    event loop, started from the main module. *)
Definition ex_main : Frame := mkFrame 1 "main" None.
Definition ex_run : Frame := mkFrame 2 "run_forever" (Some ex_main).
Definition ex_coro : Frame := mkFrame 3 "coro" (Some ex_run).
Definition ex_caller : Frame := mkFrame 4 "print_graph" (Some ex_coro).
Definition ex_waiter : Frame := mkFrame 50 "waiter" None.
Definition ex_elsewhere : Frame := mkFrame 77 "elsewhere" None.

(** A future expands to its own node; a task to a frame node, the head,
    awaited by the node of the task, the tail. *)
Definition future_nodes (a : Awaitable) : Subgraph :=
  mkSubgraph (mkNode (AsyncGraphNodeAsyncGraphAwaitable a) ∅) [] 0.

Definition task_nodes (a : Awaitable) (f : Frame) : Subgraph :=
  mkSubgraph (mkNode (AsyncGraphNodeAsyncGraphAwaitable a) ∅)
             [mkNode (AsyncGraphNodeFrame f) {[0]}] 1.

(** No event loop is running. *)
Definition ex_idle : Runtime :=
  mkRuntime None (λ _, None) (λ _, []) future_nodes (λ _, "future")
            (λ _, None).

(** The current task 10 is awaited by 11 and by 12, and both are awaited by
    the task 13. *)
Definition ex_diamond : Runtime :=
  mkRuntime (Some 0) (λ _, Some 10)
    (λ a, if decide (a = 10) then [11; 12]
          else if decide (a = 11 ∨ a = 12) then [13] else [])
    (λ a, if decide (a = 13) then task_nodes a ex_waiter else future_nodes a)
    (λ _, "awaitable")
    (λ _, Some ex_coro).

(** The current task 10 is awaited by 11; its coroutine frame is not on the
    stack of the caller. *)
Definition ex_lost : Runtime :=
  mkRuntime (Some 0) (λ _, Some 10)
    (λ a, if decide (a = 10) then [11] else [])
    future_nodes (λ _, "awaitable") (λ _, Some ex_elsewhere).

(** The current task 10 expands to a frame that is not on the stack of the
    caller. *)
Definition ex_task : Runtime :=
  mkRuntime (Some 0) (λ _, Some 10) (λ _, [])
    (λ a, task_nodes a ex_elsewhere) (λ _, "task") (λ _, Some ex_coro).

(** The current task 10 and the awaitable 11 await each other. *)
Definition ex_cycle : Runtime :=
  mkRuntime (Some 0) (λ _, Some 10)
    (λ a, if decide (a = 10) then [11]
          else if decide (a = 11) then [10] else [])
    future_nodes (λ _, "awaitable") (λ _, Some ex_coro).

(** The worklist state a runtime ends with, and the graph it returns. *)
Definition ex_drained (rt : Runtime) (fuel : nat) (cur : Awaitable)
  : DrainState :=
  default (drain_init rt cur).1.1 (drain rt fuel (drain_init rt cur).1.1).

Definition ex_graph (rt : Runtime) (fuel : nat) (frame : Frame) : Heap :=
  match get_async_graph rt fuel frame with
  | Returned (h, _) => h
  | _ => []
  end.

(** A node whose text has a double quote and a newline. *)
Definition ex_quoted : string :=
  String "a" (String dquote (String "b" (String newline "c"))).

Definition ex_quoted_heap : Heap :=
  [mkNode (AsyncGraphNodeError ex_quoted []) ∅].

(** The current task 10 expands to the frame of the caller itself. *)
Definition ex_direct : Runtime :=
  mkRuntime (Some 0) (λ _, Some 10) (λ _, [])
    (λ a, task_nodes a ex_caller) (λ _, "task") (λ _, Some ex_coro).

(** The current task 10 expands to the frame [ex_run], which called the
    frame that called the caller; its coroutine frame is [ex_main], the
    outermost frame of the stack. *)
Definition ex_nested : Runtime :=
  mkRuntime (Some 0) (λ _, Some 10) (λ _, [])
    (λ a, task_nodes a ex_run) (λ _, "task") (λ _, Some ex_main).

(** The example of the docstring of [get_async_graph]: the task 10 runs the
    coroutine of [ex_coro], which called [print_graph]. *)
Definition ex_docstring : Runtime :=
  mkRuntime (Some 0) (λ _, Some 10) (λ _, [])
    (λ a, task_nodes a ex_coro) (λ _, "task") (λ _, Some ex_coro).


(** * Properties *)

Section store.
Implicit Types (h : list AsyncGraphNode) (n : AsyncGraphNode).

Lemma Frame_back_ind (P : Frame → Prop) :
  (∀ i s, P (mkFrame i s None)) →
  (∀ i s b, P b → P (mkFrame i s (Some b))) →
  ∀ f, P f.
Proof.
  intros Hend Hlink. fix IH 1.
  intros [i s [b|]]; [apply Hlink, IH | apply Hend].
Qed.

Lemma frame_chain_head f : frame_chain f !! 0 = Some f.
Proof. by destruct f as [i s [b|]]. Qed.

Lemma frame_chain_unfold f :
  frame_chain f = f :: from_option frame_chain [] (f_back f).
Proof. by destruct f as [i s [b|]]. Qed.

Lemma add_awaited_by_length h r c :
  length (add_awaited_by h r c) = length h.
Proof. apply length_alter. Qed.

Lemma add_awaited_by_last h0 n c :
  add_awaited_by (h0 ++ [n]) (length h0) c = h0 ++ [add_edge c n].
Proof.
  unfold add_awaited_by. rewrite alter_app_r_alt by lia.
  by rewrite Nat.sub_diag.
Qed.

Lemma chain_nodes_length base fs :
  length (chain_nodes base fs) = length fs.
Proof. revert base. induction fs as [|f fs IH]; intros; simpl; auto. Qed.

Lemma chain_nodes_lookup base fs i f :
  fs !! i = Some f →
  chain_nodes base fs !! i
  = Some (mkNode (AsyncGraphNodeFrame f)
            (if decide (S i < length fs) then {[S (base + i)]} else ∅)).
Proof.
  revert base i. induction fs as [|g fs IH]; intros base i Hi; [done|].
  destruct i as [|i]; simpl in *.
  - injection Hi as ->. rewrite Nat.add_0_r.
    destruct fs; case_decide; simpl in *; done || lia.
  - rewrite (IH (S base) i Hi).
    replace (S base + i) with (base + S i) by lia.
    do 2 f_equal. repeat case_decide; done || lia.
Qed.

Lemma chain_nodes_kind base fs n :
  n ∈ chain_nodes base fs → ∃ f, f ∈ fs ∧ kind n = AsyncGraphNodeFrame f.
Proof.
  revert base. induction fs as [|g fs IH]; intros base; simpl.
  - by intros ?%elem_of_nil.
  - intros [->|Hn]%elem_of_cons.
    + exists g. split; [left | done].
    + destruct (IH _ Hn) as (f & ? & ?). exists f. split; [by right | done].
Qed.

(** The walk of the fallback mode extends a store ending in the node of
    [frame] to the straight line over the whole frame chain. *)
Lemma fallback_walk_chain frame h0 :
  fallback_walk frame (h0 ++ [mkNode (AsyncGraphNodeFrame frame) ∅])
                (length h0)
  = h0 ++ chain_nodes (length h0) (frame_chain frame).
Proof.
  revert h0. induction frame as [i s|i s b IH] using Frame_back_ind;
    intros h0; [done|].
  cbn [fallback_walk new_node]. rewrite length_app, Nat.add_1_r.
  rewrite <- (assoc_L (++)). cbn [app].
  change (h0 ++ ?x :: [?y]) with (h0 ++ [x] ++ [y]).
  rewrite (assoc_L (++)).
  unfold add_awaited_by. rewrite alter_app_l
    by (rewrite length_app; simpl; lia).
  fold (add_awaited_by (h0 ++ [mkNode (AsyncGraphNodeFrame (mkFrame i s (Some b))) ∅]) (length h0) (S (length h0))).
  rewrite add_awaited_by_last.
  specialize (IH (h0 ++ [add_edge (S (length h0))
      (mkNode (AsyncGraphNodeFrame (mkFrame i s (Some b))) ∅)])).
  rewrite length_app, Nat.add_1_r in IH. rewrite IH.
  rewrite <- (assoc_L (++)). f_equal. cbn [app frame_chain chain_nodes].
  unfold add_edge; cbn [kind awaited_by]. rewrite (left_id_L ∅ (∪)).
  by destruct b as [? ? [?|]].
Qed.
End store.

(** ** The store only grows *)

Section heap_ext.
Implicit Types (h : list AsyncGraphNode).

Lemma heap_ext_refl h : heap_ext h h.
Proof. by split. Qed.

Lemma heap_ext_trans h1 h2 h3 :
  heap_ext h1 h2 → heap_ext h2 h3 → heap_ext h1 h3.
Proof.
  intros [Hl1 Hk1] [Hl2 Hk2]. split; [lia|].
  intros r Hr. rewrite Hk2 by lia. by apply Hk1.
Qed.

Lemma heap_ext_app h l : heap_ext h (h ++ l).
Proof.
  split; [rewrite length_app; lia|].
  intros r Hr. by rewrite lookup_app_l.
Qed.

Lemma add_awaited_by_kind h node child r :
  kind <$> add_awaited_by h node child !! r = kind <$> h !! r.
Proof.
  unfold add_awaited_by. destruct (decide (node = r)) as [->|Hne].
  - rewrite list_lookup_alter_eq. by destruct (h !! r).
  - by rewrite list_lookup_alter_ne.
Qed.

Lemma heap_ext_add h node child : heap_ext h (add_awaited_by h node child).
Proof.
  split; [by rewrite add_awaited_by_length|].
  intros r _. apply add_awaited_by_kind.
Qed.

Lemma heap_ext_call rt h a :
  heap_ext h (call_makeAsyncGraphNodes rt h a).1.1.
Proof. apply heap_ext_app. Qed.

Lemma node_get_awaiters_ext rt h h' r :
  heap_ext h h' → r < length h →
  node_get_awaiters rt h' r = node_get_awaiters rt h r.
Proof.
  intros [_ Hk] Hr. specialize (Hk r Hr). unfold node_get_awaiters.
  destruct (h' !! r), (h !! r); simpl in Hk; congruence.
Qed.

Lemma awaited_by_of_add h node child r :
  awaited_by_of (add_awaited_by h node child) r
  = if decide (r = node ∧ node < length h)
    then awaited_by_of h r ∪ {[child]} else awaited_by_of h r.
Proof.
  unfold awaited_by_of, add_awaited_by. case_decide as Hc.
  - destruct Hc as [-> Hlt]. rewrite list_lookup_alter_eq.
    destruct (lookup_lt_is_Some_2 h node Hlt) as [n ->]. done.
  - destruct (decide (node = r)) as [->|Hne].
    + rewrite list_lookup_alter_eq.
      rewrite (lookup_ge_None_2 h r); [done|].
      destruct (decide (r < length h)); [by destruct Hc | lia].
    + by rewrite list_lookup_alter_ne.
Qed.
End heap_ext.

(** ** The worklist *)

Section drain.
Variable rt : Runtime.

Lemma call_tail_lookup (h : list AsyncGraphNode) a :
  let '(h1, child_node, _) := call_makeAsyncGraphNodes rt h a in
  child_node = length h
  ∧ kind <$> h1 !! child_node
    = Some (kind (sg_tail (makeAsyncGraphNodes rt a))).
Proof.
  unfold call_makeAsyncGraphNodes; cbn. split; [done|].
  rewrite lookup_app_r by lia. by rewrite Nat.sub_diag.
Qed.

Lemma call_length (h : list AsyncGraphNode) a :
  length (call_makeAsyncGraphNodes rt h a).1.1
  = S (length h + length (sg_rest (makeAsyncGraphNodes rt a))).
Proof.
  unfold call_makeAsyncGraphNodes; cbn.
  rewrite length_app; cbn. rewrite length_fmap. lia.
Qed.

Lemma visit_awaiter_ext node st b :
  heap_ext (d_heap st) (d_heap (visit_awaiter rt node st b)).
Proof.
  unfold visit_awaiter. destruct (awaitable_to_head_node st !! b); cbn.
  - apply heap_ext_add.
  - eapply heap_ext_trans; [apply heap_ext_app | apply heap_ext_add].
Qed.

Lemma visit_awaiter_wf node st b :
  drain_wf st → drain_wf (visit_awaiter rt node st b).
Proof.
  intros [Hq Ht].
  pose proof (visit_awaiter_ext node st b) as [Hlen _].
  unfold visit_awaiter in *.
  destruct (awaitable_to_head_node st !! b); cbn in *.
  - split; intros r Hr; cbn in *;
      [specialize (Hq r Hr) | specialize (Ht r Hr)]; lia.
  - split; intros r Hr; cbn in *.
    + apply elem_of_cons in Hr as [->|Hr]; [|specialize (Hq r Hr); lia].
      rewrite add_awaited_by_length, length_app; cbn. lia.
    + specialize (Ht r Hr); lia.
Qed.

Lemma visit_awaiters_wf node bs st :
  drain_wf st →
  drain_wf (foldl (visit_awaiter rt node) st bs)
  ∧ heap_ext (d_heap st) (d_heap (foldl (visit_awaiter rt node) st bs)).
Proof.
  revert st. induction bs as [|b bs IH]; intros st Hwf; cbn.
  - split; [done | apply heap_ext_refl].
  - destruct (IH _ (visit_awaiter_wf node st b Hwf)) as [? ?].
    split; [done|].
    eapply heap_ext_trans; [apply visit_awaiter_ext | done].
Qed.

Lemma drain_step_wf node rest st :
  node_q st = node :: rest → drain_wf st →
  drain_wf (drain_step rt node rest st)
  ∧ heap_ext (d_heap st) (d_heap (drain_step rt node rest st)).
Proof.
  intros Hq [Hvq Hvt]. unfold drain_step.
  match goal with
  | |- context [foldl _ ?s _] => apply (visit_awaiters_wf node _ s)
  end.
  split; cbn.
  - intros r Hr. apply Hvq. rewrite Hq. by right.
  - intros r Hr. case_decide; [|by apply Hvt].
    apply elem_of_union in Hr as [Hr|Hr]; [by apply Hvt|].
    apply elem_of_singleton in Hr as ->. apply Hvq. rewrite Hq. by left.
Qed.

Lemma drain_wf_preserved fuel st st' :
  drain rt fuel st = Some st' → drain_wf st →
  drain_wf st' ∧ heap_ext (d_heap st) (d_heap st') ∧ node_q st' = [].
Proof.
  revert st. induction fuel as [|fuel IH]; intros st Hrun Hwf; cbn in Hrun.
  - destruct (node_q st) eqn:Hq; [|done]. simplify_eq.
    split; [done|]. split; [apply heap_ext_refl | done].
  - destruct (node_q st) as [|node rest] eqn:Hq.
    { simplify_eq. split; [done|]. split; [apply heap_ext_refl | done]. }
    destruct (drain_step_wf node rest st Hq Hwf) as [Hwf1 Hext1].
    destruct (IH _ Hrun Hwf1) as (? & ? & ?).
    split; [done|]. split; [by eapply heap_ext_trans | done].
Qed.

Lemma drain_more_fuel fuel fuel' st st' :
  drain rt fuel st = Some st' → fuel ≤ fuel' →
  drain rt fuel' st = Some st'.
Proof.
  revert fuel' st. induction fuel as [|fuel IH]; intros fuel' st Hrun Hle.
  - cbn in Hrun. destruct (node_q st) eqn:Hq; [|done].
    destruct fuel'; cbn; by rewrite Hq.
  - destruct fuel' as [|fuel']; [lia|]. cbn in *.
    destruct (node_q st); [done|]. apply IH; [done | lia].
Qed.

Lemma drain_init_wf cur st0 task_node task_head_node :
  drain_init rt cur = (st0, task_node, task_head_node) →
  drain_wf st0
  ∧ task_node < length (d_heap st0)
  ∧ task_head_node < length (d_heap st0)
  ∧ node_q st0 = [task_node]
  ∧ awaitable_to_head_node st0 = {[cur := task_head_node]}.
Proof.
  unfold drain_init, call_makeAsyncGraphNodes. intros [= <- <- <-]; cbn.
  rewrite length_fmap.
  repeat split; try lia.
  - intros r ->%list_elem_of_singleton. cbn. lia.
  - by intros r ?%not_elem_of_empty.
Qed.

(** *** Termination *)

Variable U : gset nat.
Hypothesis U_closed : awaiters_closed rt U.

Lemma size_unexpanded_insert (m : gmap nat nat) b r :
  b ∈ U → m !! b = None →
  S (size (U ∖ dom (<[b := r]> m))) = size (U ∖ dom m).
Proof.
  intros Hb Hm. rewrite dom_insert_L.
  assert (b ∉ dom m) by by apply not_elem_of_dom.
  replace (U ∖ dom m) with ({[b]} ∪ U ∖ ({[b]} ∪ dom m)).
  - pose proof (size_union (C:=gset nat) {[b]} (U ∖ ({[b]} ∪ dom m)))
      as Hsize.
    rewrite Hsize by set_solver. by rewrite size_singleton.
  - apply set_eq. intros x. destruct (decide (x = b)); set_solver.
Qed.

Lemma visit_awaiter_measure node st b :
  drain_wf st → node < length (d_heap st) → drain_closed rt U st → b ∈ U →
  drain_closed rt U (visit_awaiter rt node st b)
  ∧ drain_measure U (visit_awaiter rt node st b) = drain_measure U st.
Proof.
  intros [Hvq _] Hnode Hcl Hb.
  unfold visit_awaiter, drain_closed, drain_measure.
  destruct (awaitable_to_head_node st !! b) as [known|] eqn:Hknown; cbn.
  - split; [|done]. intros r c Hr.
    rewrite (node_get_awaiters_ext rt (d_heap st))
      by (apply heap_ext_add || by apply Hvq).
    by apply Hcl.
  - split.
    + intros r c [->|Hr]%elem_of_cons.
      * unfold node_get_awaiters.
        pose proof (add_awaited_by_kind
          (d_heap st ++ (relocate (length (d_heap st)) <$>
                          sg_nodes (makeAsyncGraphNodes rt b)))
          node (length (d_heap st) +
                sg_head (makeAsyncGraphNodes rt b)
                `min` length (sg_rest (makeAsyncGraphNodes rt b)))
          (length (d_heap st))) as Hk.
        rewrite lookup_app_r, Nat.sub_diag in Hk by lia. cbn in Hk.
        destruct (add_awaited_by _ _ _ !! length (d_heap st))
          as [n|]; [|done]. cbn in Hk. injection Hk as ->.
        intros Hc. specialize (U_closed b Hb).
        rewrite Forall_forall in U_closed. by apply U_closed.
      * rewrite (node_get_awaiters_ext rt (d_heap st)); [by apply Hcl| |by apply Hvq].
        eapply heap_ext_trans; [apply heap_ext_app | apply heap_ext_add].
    + rewrite <- (size_unexpanded_insert _ b (length (d_heap st)) Hb Hknown).
      lia.
Qed.

Lemma visit_awaiters_measure node bs st :
  drain_wf st → node < length (d_heap st) → drain_closed rt U st →
  Forall (λ b, b ∈ U) bs →
  drain_closed rt U (foldl (visit_awaiter rt node) st bs)
  ∧ drain_measure U (foldl (visit_awaiter rt node) st bs) = drain_measure U st.
Proof.
  revert st. induction bs as [|b bs IH]; intros st Hwf Hnode Hcl HU; [done|].
  apply Forall_cons in HU as [Hb HU]. cbn.
  destruct (visit_awaiter_measure node st b Hwf Hnode Hcl Hb) as [Hcl1 <-].
  apply IH; [by apply visit_awaiter_wf| |done|done].
  pose proof (visit_awaiter_ext node st b) as [? _]. lia.
Qed.

Lemma drain_enough_fuel fuel st :
  drain_wf st → drain_closed rt U st → drain_measure U st ≤ fuel →
  is_Some (drain rt fuel st).
Proof.
  revert st. induction fuel as [|fuel IH]; intros st Hwf Hcl Hm.
  - unfold drain_measure in Hm. cbn.
    destruct (node_q st); [by eexists | cbn in Hm; lia].
  - cbn. destruct (node_q st) as [|node rest] eqn:Hq; [by eexists|].
    destruct (drain_step_wf node rest st Hq Hwf) as [Hwf1 _].
    pose proof Hwf as [Hvq Hvt].
    assert (Hnode : node < length (d_heap st)).
    { apply Hvq. rewrite Hq. by left. }
    unfold drain_step in *.
    set (st1 := mkDrain _ rest _ _) in *.
    destruct (visit_awaiters_measure node
                (node_get_awaiters rt (d_heap st) node) st1) as [Hcl1 Hm1].
    + split; cbn.
      * intros r Hr. apply Hvq. rewrite Hq. by right.
      * intros r Hr. case_decide; [|by apply Hvt].
        apply elem_of_union in Hr as [Hr|Hr]; [by apply Hvt|].
        by apply elem_of_singleton in Hr as ->.
    + done.
    + intros r b Hr Hb. apply (Hcl r b); [rewrite Hq; by right | done].
    + apply Forall_forall. intros b Hb.
      apply (Hcl node b); [rewrite Hq; by left | done].
    + apply IH; [done | done |].
      rewrite Hm1. unfold drain_measure in *. rewrite Hq in Hm.
      cbn in *. lia.
Qed.
End drain.

(** ** Attaching the top and the bottom of the graph *)

(** Peels the outermost store operation off a [heap_ext] goal. *)
Ltac heap_ext_steps :=
  repeat first
    [ apply heap_ext_refl
    | eapply heap_ext_trans; [|apply heap_ext_add]
    | eapply heap_ext_trans; [|apply heap_ext_app] ].


Section grafts.
Implicit Types (h : list AsyncGraphNode) (T : gset nat).

Lemma linked_nodes_length base fs :
  length (linked_nodes base fs) = length fs.
Proof. revert base. induction fs as [|f fs IH]; intros; simpl; auto. Qed.

Lemma linked_nodes_lookup base fs i f :
  fs !! i = Some f →
  linked_nodes base fs !! i
  = Some (mkNode (AsyncGraphNodeFrame f) {[S (base + i)]}).
Proof.
  revert base i. induction fs as [|g fs IH]; intros base i Hi; [done|].
  destruct i as [|i]; simpl in *.
  - injection Hi as ->. by rewrite Nat.add_0_r.
  - rewrite (IH (S base) i Hi). by rewrite Nat.add_succ_r.
Qed.

Lemma fan_in_length h ts new : length (fan_in h ts new) = length h.
Proof.
  revert h. induction ts as [|t ts IH]; intros h; [done|].
  cbn. fold (fan_in (add_awaited_by h t new) ts new).
  by rewrite IH, add_awaited_by_length.
Qed.

Lemma fan_in_app h l ts new :
  Forall (λ t, t < length h) ts →
  fan_in (h ++ l) ts new = fan_in h ts new ++ l.
Proof.
  revert h. induction ts as [|t ts IH]; intros h Hts; [done|].
  apply Forall_cons in Hts as [Ht Hts]. cbn.
  fold (fan_in (add_awaited_by (h ++ l) t new) ts new).
  fold (fan_in (add_awaited_by h t new) ts new).
  unfold add_awaited_by at 1. rewrite alter_app_l by done.
  apply IH. by rewrite add_awaited_by_length.
Qed.

Lemma fan_in_awaited_by h ts new r :
  r ∈ ts → r < length h → new ∈ awaited_by_of (fan_in h ts new) r.
Proof.
  revert h. induction ts as [|t ts IH]; intros h Hr Hlt.
  - by apply elem_of_nil in Hr.
  - cbn. fold (fan_in (add_awaited_by h t new) ts new).
    destruct (decide (r ∈ ts)) as [Hin|Hnin].
    + apply IH; [done | by rewrite add_awaited_by_length].
    + apply elem_of_cons in Hr as [->|?]; [|done].
      assert (Hmono : ∀ h', new ∈ awaited_by_of h' t →
                new ∈ awaited_by_of (fan_in h' ts new) t).
      { clear. induction ts as [|u ts IH]; intros h' Hin; [done|].
        cbn. apply IH. rewrite awaited_by_of_add.
        case_decide; set_solver. }
      apply Hmono. rewrite awaited_by_of_add.
      rewrite decide_True by done. set_solver.
Qed.

(** After its first round the loop over the frames below the task is the
    walk of the fallback mode. *)
Lemma bottom_loop_as_walk T i s b h t :
  bottom_loop T b h (Some t) = fallback_walk (mkFrame i s (Some b)) h t.
Proof.
  revert i s h t. induction b as [j u|j u b IH] using Frame_back_ind;
    intros i s h t; [done|].
  cbn [bottom_loop fallback_walk new_node]. by rewrite (IH j u).
Qed.

Lemma bottom_loop_shape T f h :
  (∀ t, t ∈ T → t < length h) →
  bottom_loop T f h None
  = fan_in h (elements T) (length h)
      ++ chain_nodes (length h) (frame_chain f).
Proof.
  intros HT. destruct f as [i s back].
  cbn [bottom_loop new_node].
  fold (fan_in (h ++ [mkNode (AsyncGraphNodeFrame (mkFrame i s back)) ∅])
               (elements T) (length h)).
  rewrite fan_in_app
    by (apply Forall_forall; intros t Ht; by apply HT, elem_of_elements).
  destruct back as [b|]; [|done].
  rewrite (bottom_loop_as_walk T i s).
  pose proof (fallback_walk_chain (mkFrame i s (Some b))
                (fan_in h (elements T) (length h))) as Hwalk.
  by rewrite fan_in_length in Hwalk.
Qed.

Lemma entry_search_found entry frame f1 :
  entry_search entry frame = Some f1 →
  ∃ e fe, entry = Some e ∧ fe ∈ frame_chain frame
          ∧ f_id fe = f_id e ∧ f_back fe = Some f1.
Proof.
  induction frame as [i s|i s b IH] using Frame_back_ind;
    cbn [entry_search]; case_bool_decide as Hid; try done.
  - intros ->. destruct entry as [e|]; [|done]. cbn in Hid.
    exists e, (mkFrame i s (Some f1)).
    repeat split; cbn; [left | congruence].
  - intros Hb. destruct (IH Hb) as (e & fe & ? & ? & ? & ?).
    exists e, fe. repeat split; try done. cbn. by right.
Qed.

Lemma entry_search_none entry frame :
  entry_not_found entry frame → frame ≫= entry_search entry = None.
Proof.
  destruct frame as [f0|]; [|done]. intros Hnf. cbn.
  assert (Hall : ∀ f, f ∈ frame_chain f0 → f_id <$> entry ≠ Some (f_id f))
    by (intros f Hf; by eapply Hnf).
  clear Hnf. induction f0 as [i s|i s b IH] using Frame_back_ind;
    cbn [entry_search]; case_bool_decide as Hid; try done.
  - destruct (Hall (mkFrame i s (Some b))); [left | done].
  - apply IH. intros f Hf. apply Hall. cbn. by right.
Qed.

(** The loop over the caller's frames keeps the nodes it finds and ends
    with a [tail_node] of the store. *)
Lemma top_loop_ext exit frame h head tail :
  tail < length h →
  heap_ext h (g_heap (top_loop exit frame h head tail))
  ∧ g_tail_node (top_loop exit frame h head tail)
    < length (g_heap (top_loop exit frame h head tail)).
Proof.
  revert h head tail.
  induction frame as [i s|i s b IH] using Frame_back_ind;
    intros h head tail Htail; cbn [top_loop new_node];
    (destruct (frame_is _ exit); [by split; [apply heap_ext_refl|]|]).
  - destruct head; cbn; (split; [heap_ext_steps|]);
      rewrite ?add_awaited_by_length, ?length_app, ?add_awaited_by_length,
        ?length_app; cbn; lia.
  - destruct head as [hd|]; cbn.
    + destruct (IH (add_awaited_by
        (h ++ [mkNode (AsyncGraphNodeFrame (mkFrame i s (Some b))) ∅])
        tail (length h)) (Some hd) (length h)) as [Hext Hlt];
        [rewrite add_awaited_by_length, length_app; cbn; lia|].
      split; [|exact Hlt].
      eapply heap_ext_trans; [|exact Hext]. heap_ext_steps.
    + destruct (IH
        (h ++ [mkNode (AsyncGraphNodeFrame (mkFrame i s (Some b))) ∅])
        (Some (length h)) (length h))
        as [Hext Hlt]; [rewrite length_app; cbn; lia|].
      split; [|exact Hlt].
      eapply heap_ext_trans; [|exact Hext]. heap_ext_steps.
Qed.

Lemma top_graft_ext h task_node task_head_node frame :
  task_node < length h → task_head_node < length h →
  heap_ext h (g_heap (top_graft h task_node task_head_node frame))
  ∧ g_tail_node (top_graft h task_node task_head_node frame)
    < length (g_heap (top_graft h task_node task_head_node frame)).
Proof.
  intros Htn Hthn. unfold top_graft.
  destruct (kind <$> h !! task_head_node) as [[a|e|t aws]|];
    cbn; try (split; [apply heap_ext_refl | done]).
  destruct (top_loop_ext e frame h None task_head_node Hthn) as [Hext Hlt].
  split; [|by rewrite add_awaited_by_length].
  eapply heap_ext_trans; [exact Hext | apply heap_ext_add].
Qed.

Lemma link_step h0 n k r c :
  r = length h0 →
  add_awaited_by ((h0 ++ [n]) ++ [k]) r c = (h0 ++ [add_edge c n]) ++ [k].
Proof.
  intros ->. unfold add_awaited_by.
  rewrite alter_app_l by (rewrite length_app; cbn; lia).
  by rewrite alter_app_r_alt, Nat.sub_diag by lia.
Qed.

Lemma add_edge_first c k :
  add_edge c (mkNode k ∅) = mkNode k {[c]}.
Proof. unfold add_edge; cbn. by rewrite (left_id_L ∅ (∪)). Qed.

(** The caller's frame chain ends before the exit frame of the task. *)
Lemma top_loop_exhausted_next exit frame h0 prev E hd :
  (∀ f, f ∈ frame_chain frame → f_id f ≠ f_id exit) →
  top_loop exit frame (h0 ++ [mkNode prev E]) (Some hd) (length h0)
  = mkGrafted
      (h0 ++ [mkNode prev (E ∪ {[S (length h0)]})]
          ++ linked_nodes (S (length h0)) (frame_chain frame)
          ++ [mkNode (AsyncGraphNodeError exit_error_text []) ∅])
      (Some hd) (S (length h0) + length (frame_chain frame)) None.
Proof.
  revert h0 prev E.
  induction frame as [i s|i s b IH] using Frame_back_ind;
    intros h0 prev E Hne; cbn [top_loop new_node];
    unfold frame_is; rewrite bool_decide_eq_false_2
      by (apply Hne; by left);
    rewrite link_step by done.
  - rewrite link_step by (rewrite !length_app; cbn; lia).
    rewrite !length_app. cbn [length frame_chain linked_nodes].
    rewrite add_edge_first. unfold add_edge; cbn [kind awaited_by].
    rewrite <- !(assoc_L (++)). cbn [app].
    by rewrite ?Nat.add_1_r.
  - rewrite length_app; cbn [length]. rewrite Nat.add_1_r.
    pose proof (IH (h0 ++ [add_edge (S (length h0)) (mkNode prev E)])
                   (AsyncGraphNodeFrame (mkFrame i s (Some b))) ∅) as IH'.
    rewrite length_app, Nat.add_1_r in IH'. cbn [length] in IH'.
    rewrite IH' by (intros f Hf; apply Hne; cbn; by right).
    rewrite (left_id_L ∅ (∪)). unfold add_edge; cbn [kind awaited_by].
    rewrite <- !(assoc_L (++)).
    cbn [app frame_chain linked_nodes length].
    f_equal. lia.
Qed.

Lemma top_loop_exhausted exit frame h tail :
  (∀ f, f ∈ frame_chain frame → f_id f ≠ f_id exit) →
  top_loop exit frame h None tail
  = mkGrafted
      (h ++ linked_nodes (length h) (frame_chain frame)
         ++ [mkNode (AsyncGraphNodeError exit_error_text []) ∅])
      (Some (length h)) (length h + length (frame_chain frame)) None.
Proof.
  intros Hne. destruct frame as [i s [b|]]; cbn [top_loop new_node];
    unfold frame_is; rewrite bool_decide_eq_false_2
      by (apply Hne; by left).
  - rewrite top_loop_exhausted_next
      by (intros f Hf; apply Hne; cbn; by right).
    rewrite (left_id_L ∅ (∪)). cbn [frame_chain linked_nodes length].
    cbn [app]. f_equal. lia.
  - rewrite link_step by done. rewrite add_edge_first.
    rewrite !length_app. cbn [length frame_chain linked_nodes].
    rewrite <- !(assoc_L (++)). cbn [app].
    by rewrite ?Nat.add_1_r.
Qed.
End grafts.

(** ** The whole call in cooperative mode *)

Section cooperative.
Variables (rt : Runtime) (fuel : nat) (frame : Frame) (cur : nat).
Variables (st0 st : DrainState) (task_node task_head_node : nat).
Hypothesis Hinit : drain_init rt cur = (st0, task_node, task_head_node).
Hypothesis Hrun : drain rt fuel st0 = Some st.

Lemma drained_wf :
  drain_wf st
  ∧ task_node < length (d_heap st)
  ∧ task_head_node < length (d_heap st).
Proof.
  destruct (drain_init_wf rt cur st0 _ _ Hinit) as (Hwf & Htn & Hthn & _).
  destruct (drain_wf_preserved rt _ _ _ Hrun Hwf) as (Hwf' & [Hlen _] & _).
  split; [done|]. lia.
Qed.

Lemma cooperative_returns t :
  t ∈ terminal_async_nodes st →
  cooperative rt fuel frame cur
  = let g := top_graft (d_heap st) task_node task_head_node frame in
    Returned
      (bottom_graft (terminal_async_nodes st) (g_heap g) (g_tail_node g)
                    (g_frame g ≫= entry_search (cr_frame rt cur)),
       g_head_node g).
Proof.
  intros Ht. unfold cooperative. rewrite Hinit, Hrun.
  rewrite decide_True; [done|].
  destruct (decide (0 < size (terminal_async_nodes st))); [done|].
  assert (terminal_async_nodes st ≡ ∅) as Hempty
    by (apply size_empty_inv; lia).
  set_solver.
Qed.

(** The graph returned when the caller's frame chain ends before the exit
    frame of the task: the nodes of the worklist, one linked frame node per
    frame of the caller's chain, the error node of the exit frame and the
    error node of the entry point. *)
Lemma cooperative_exit_not_found t exit :
  t ∈ terminal_async_nodes st →
  kind <$> d_heap st !! task_head_node = Some (AsyncGraphNodeFrame exit) →
  (∀ f, f ∈ frame_chain frame → f_id f ≠ f_id exit) →
  cooperative rt fuel frame cur
  = let base := length (d_heap st) in
    let k := length (frame_chain frame) in
    Returned
      (d_heap st ++ linked_nodes base (frame_chain frame)
         ++ [mkNode (AsyncGraphNodeError exit_error_text [])
                    {[task_head_node; S (base + k)]};
             mkNode (AsyncGraphNodeError entry_error_text []) ∅],
       Some base).
Proof.
  intros Ht Hkind Hne. rewrite (cooperative_returns t Ht).
  unfold top_graft. rewrite Hkind.
  rewrite (top_loop_exhausted exit frame _ _ Hne).
  cbn [g_heap g_tail_node g_head_node g_frame option_bind mbind
       bottom_graft new_node].
  cbn zeta. rewrite !(assoc_L (++) (d_heap st)).
  assert (Hlen : length (d_heap st) + length (frame_chain frame)
                 = length (d_heap st ++ linked_nodes (length (d_heap st))
                                                      (frame_chain frame)))
    by (by rewrite length_app, linked_nodes_length).
  rewrite Hlen at 1 2. rewrite add_awaited_by_last, add_edge_first.
  rewrite link_step by done.
  unfold add_edge; cbn [kind awaited_by].
  rewrite <- !(assoc_L (++)). cbn [app].
  rewrite add_awaited_by_length, !length_app, linked_nodes_length.
  cbn [length].
  by replace (length (d_heap st) + (length (frame_chain frame) + 1))
    with (S (length (d_heap st) + length (frame_chain frame))) by lia.
Qed.
End cooperative.

(** ** The rendering loop *)

Section dot.
Variables (rt : Runtime) (h : list AsyncGraphNode).

Lemma ids_weaken (m m' : gmap nat nat) r :
  m ⊆ m' → is_Some (m !! r) → ids m' r = ids m r.
Proof.
  intros Hsub [i Hi]. unfold ids.
  by rewrite Hi, (lookup_weaken _ _ _ _ Hi Hsub).
Qed.

Lemma node_id_spec r st :
  ids_wf st →
  graph (node_id r st).2 = graph st
  ∧ seen (node_id r st).2 = seen st
  ∧ q (node_id r st).2 = q st
  ∧ node_to_id st ⊆ node_to_id (node_id r st).2
  ∧ node_to_id (node_id r st).2 !! r = Some (node_id r st).1
  ∧ ids_wf (node_id r st).2.
Proof.
  intros [Hinj Hbound]. unfold node_id.
  destruct (node_to_id st !! r) as [i|] eqn:Hr; cbn.
  { by split_and!. }
  split_and!; try done.
  { by apply insert_subseteq. }
  { by rewrite lookup_insert_eq. }
  split.
  - intros r1 r2 i. cbn. rewrite !lookup_insert.
    repeat case_decide; subst; intros H1 H2; simplify_eq; try done.
    + specialize (Hbound _ _ H2). lia.
    + specialize (Hbound _ _ H1). lia.
    + by eapply Hinj.
  - intros r1 i. cbn. rewrite lookup_insert. case_decide; intros H1.
    + simplify_eq. lia.
    + specialize (Hbound _ _ H1). lia.
Qed.

Lemma dot_child_spec node st c :
  ids_wf st →
  seen (dot_child node st c) = seen st
  ∧ q (dot_child node st c) = c :: q st
  ∧ node_to_id st ⊆ node_to_id (dot_child node st c)
  ∧ ids_wf (dot_child node st c)
  ∧ is_Some (node_to_id (dot_child node st c) !! node)
  ∧ is_Some (node_to_id (dot_child node st c) !! c)
  ∧ graph (dot_child node st c)
    = graph st ++ [EdgeLine (ids (node_to_id (dot_child node st c)) node)
                            (ids (node_to_id (dot_child node st c)) c)].
Proof.
  intros Hwf. unfold dot_child.
  set (st1 := mkDot _ _ _ _ (c :: q st)).
  assert (Hwf1 : ids_wf st1) by done.
  destruct (node_id_spec node st1 Hwf1)
    as (Hg2 & Hs2 & Hq2 & Hsub2 & Hid2 & Hwf2).
  destruct (node_id node st1) as [i st2]; cbn in *.
  destruct (node_id_spec c st2 Hwf2)
    as (Hg3 & Hs3 & Hq3 & Hsub3 & Hid3 & Hwf3).
  destruct (node_id c st2) as [j st3]; cbn in *.
  pose proof (lookup_weaken _ _ _ _ Hid2 Hsub3) as Hid2'.
  split_and!.
  - congruence.
  - congruence.
  - by etrans.
  - done.
  - by eexists.
  - by eexists.
  - unfold ids. rewrite Hid2', Hid3. cbn. congruence.
Qed.

Lemma dot_children_spec node cs st :
  ids_wf st →
  seen (foldl (dot_child node) st cs) = seen st
  ∧ q (foldl (dot_child node) st cs) = reverse cs ++ q st
  ∧ node_to_id st ⊆ node_to_id (foldl (dot_child node) st cs)
  ∧ ids_wf (foldl (dot_child node) st cs)
  ∧ (∀ c, c ∈ cs → is_Some (node_to_id (foldl (dot_child node) st cs) !! c))
  ∧ graph (foldl (dot_child node) st cs)
    = graph st
        ++ ((λ c, EdgeLine
                    (ids (node_to_id (foldl (dot_child node) st cs)) node)
                    (ids (node_to_id (foldl (dot_child node) st cs)) c))
            <$> cs).
Proof.
  revert st. induction cs as [|c cs IH]; intros st Hwf; cbn [foldl].
  { split_and!; try done.
    - by intros c ?%elem_of_nil.
    - cbn. by rewrite (right_id_L [] (++)). }
  destruct (dot_child_spec node st c Hwf)
    as (Hs1 & Hq1 & Hsub1 & Hwf1 & Hn1 & Hc1 & Hg1).
  destruct (IH _ Hwf1) as (Hs & Hq & Hsub & Hwf' & Hcs & Hg).
  split_and!.
  - congruence.
  - rewrite Hq, Hq1, reverse_cons, <- (assoc_L (++)). done.
  - by etrans.
  - done.
  - intros d [->|Hd]%elem_of_cons; [|by apply Hcs].
    destruct Hc1 as [j Hj]. exists j. by eapply lookup_weaken.
  - rewrite Hg, Hg1, <- (assoc_L (++)). cbn. do 3 f_equal.
    + symmetry. by apply ids_weaken.
    + symmetry. by apply ids_weaken.
Qed.

Lemma dot_visit_spec node st :
  ids_wf st →
  seen (dot_visit rt h node st) = seen st ∪ {[node]}
  ∧ q (dot_visit rt h node st)
    = reverse (elements (awaited_by_of h node)) ++ q st
  ∧ node_to_id st ⊆ node_to_id (dot_visit rt h node st)
  ∧ ids_wf (dot_visit rt h node st)
  ∧ is_Some (node_to_id (dot_visit rt h node st) !! node)
  ∧ (∀ c, c ∈ awaited_by_of h node →
       is_Some (node_to_id (dot_visit rt h node st) !! c))
  ∧ graph (dot_visit rt h node st)
    = graph st
        ++ node_lines rt h (ids (node_to_id (dot_visit rt h node st))) node.
Proof.
  intros Hwf. unfold dot_visit.
  set (st1 := mkDot _ (seen st ∪ {[node]}) _ _ _).
  assert (Hwf1 : ids_wf st1) by done.
  destruct (node_id_spec node st1 Hwf1)
    as (Hg2 & Hs2 & Hq2 & Hsub2 & Hid2 & Hwf2).
  destruct (node_id node st1) as [i st2]; cbn in *.
  assert (Hwf3 : ids_wf (emit (VertexLine i
                    (escape_label (node_str rt h node))) st2)) by done.
  destruct (dot_children_spec node (elements (awaited_by_of h node)) _ Hwf3)
    as (Hs & Hq & Hsub & Hwf' & Hcs & Hg).
  cbn in *.
  split_and!.
  - congruence.
  - congruence.
  - by etrans.
  - done.
  - exists i. by eapply lookup_weaken.
  - intros c Hc. by apply Hcs, elem_of_elements.
  - rewrite Hg, Hg2, <- (assoc_L (++)). unfold node_lines. cbn.
    do 3 f_equal. unfold ids.
    by rewrite (lookup_weaken _ _ _ _ Hid2 Hsub).
Qed.

(** *** The number of rounds *)

Lemma pending_visit k seen0 r :
  r ∉ seen0 →
  pending k h (seen0 ∪ {[r]})
  + (if decide (k ≤ r)
     then from_option (λ n, size (awaited_by n)) 0 (h !! (r - k)) else 0)
  = pending k h seen0.
Proof.
  intros Hr. revert k. induction h as [|n h' IH]; intros k; cbn.
  { by case_decide. }
  specialize (IH (S k)). destruct (decide (k = r)) as [->|Hne].
  - rewrite decide_True by set_solver.
    rewrite (decide_False (P := r ∈ seen0)) by done.
    rewrite decide_False, Nat.add_0_r in IH by lia.
    rewrite decide_True, Nat.sub_diag by lia. cbn.
    rewrite IH. apply Nat.add_comm.
  - destruct (decide (k ≤ r)) as [Hle|Hgt].
    + rewrite decide_True in IH by lia.
      replace (r - k) with (S (r - S k)) by lia. cbn.
      destruct (decide (k ∈ seen0)).
      * rewrite decide_True by set_solver. exact IH.
      * rewrite decide_False by set_solver.
        by rewrite <- IH, Nat.add_assoc.
    + rewrite decide_False, Nat.add_0_r in IH by lia.
      rewrite Nat.add_0_r, IH.
      destruct (decide (k ∈ seen0)).
      * by rewrite decide_True by set_solver.
      * by rewrite decide_False by set_solver.
Qed.

Lemma pending_empty k : pending k h ∅ = total_edges h.
Proof.
  unfold total_edges. revert k.
  induction h as [|n h' IH]; intros k; cbn; [done|].
  by rewrite IH.
Qed.

Lemma dot_visit_measure node st :
  ids_wf st → node ∉ seen st →
  dot_measure h (dot_visit rt h node st) = dot_measure h st.
Proof.
  intros Hwf Hnode.
  destruct (dot_visit_spec node st Hwf) as (Hs & Hq & _).
  unfold dot_measure. rewrite Hs, Hq, length_app, length_reverse.
  rewrite <- (pending_visit 0 (seen st) node Hnode).
  rewrite decide_True, Nat.sub_0_r by lia.
  unfold awaited_by_of. destruct (h !! node); cbn.
  - unfold size, set_size. cbn. lia.
  - rewrite elements_empty. cbn. lia.
Qed.

Lemma dot_loop_more_fuel fuel fuel' st st' :
  dot_loop rt h fuel st = Some st' → fuel ≤ fuel' →
  dot_loop rt h fuel' st = Some st'.
Proof.
  revert fuel' st. induction fuel as [|fuel IH]; intros fuel' st Hrun Hle.
  - cbn in Hrun. destruct (q st) eqn:Hq; [|done].
    destruct fuel'; cbn; by rewrite Hq.
  - destruct fuel' as [|fuel']; [lia|]. cbn in *.
    destruct (q st); [done|].
    case_decide; apply IH; done || lia.
Qed.
Lemma elem_of_node_lines (id : nat → nat) r l :
  l ∈ node_lines rt h id r
  ↔ l = VertexLine (id r) (escape_label (node_str rt h r))
    ∨ ∃ c, c ∈ awaited_by_of h r ∧ l = EdgeLine (id r) (id c).
Proof.
  unfold node_lines. rewrite elem_of_cons, list_elem_of_fmap.
  split; (intros [?|(c & ? & ?)]; [by left|right; exists c]).
  - by rewrite <- elem_of_elements.
  - by rewrite elem_of_elements.
Qed.

Lemma node_lines_NoDup (id : nat → nat) r :
  (∀ c c', c ∈ awaited_by_of h r → c' ∈ awaited_by_of h r →
           id c = id c' → c = c') →
  NoDup (node_lines rt h id r).
Proof.
  intros Hinj. unfold node_lines. apply NoDup_cons. split.
  - by intros (c & ? & _)%list_elem_of_fmap.
  - apply NoDup_fmap_2_strong; [|apply NoDup_elements].
    intros c c' Hc Hc' [= Heq].
    apply Hinj; [by apply elem_of_elements..|done].
Qed.

(** *** The invariant *)

Variable head : nat.

Lemma node_lines_ext (id id' : nat → nat) r :
  id r = id' r → (∀ c, c ∈ awaited_by_of h r → id c = id' c) →
  node_lines rt h id r = node_lines rt h id' r.
Proof.
  intros Hr Hc. unfold node_lines. rewrite Hr. f_equal.
  apply list_fmap_ext. intros i c Hi. f_equal.
  by apply Hc, elem_of_elements, list_elem_of_lookup_2 with i.
Qed.

Lemma order_lines_weaken (m m' : gmap nat nat) (order : list nat) :
  m ⊆ m' →
  (∀ r, r ∈ order →
     is_Some (m !! r) ∧ ∀ c, c ∈ awaited_by_of h r → is_Some (m !! c)) →
  order ≫= node_lines rt h (ids m') = order ≫= node_lines rt h (ids m).
Proof.
  intros Hsub Hdom. apply Forall_bind_ext, Forall_forall. intros r Hr.
  destruct (Hdom r Hr) as [Hsome Hchildren].
  apply node_lines_ext; [by apply ids_weaken|].
  intros c Hc. by apply ids_weaken, Hchildren.
Qed.

Lemma dot_inv_init : dot_inv rt h head (dot_init head) [].
Proof.
  split; cbn.
  - constructor.
  - intros r. set_solver.
  - done.
  - by intros r ?%elem_of_nil.
  - split; intros ? ?; by rewrite ?lookup_empty.
  - intros r c ?%not_elem_of_empty. done.
  - intros r [?%not_elem_of_empty| ->%list_elem_of_singleton]; [done|].
    apply rtc_refl.
  - right. by left.
Qed.

Lemma dot_inv_skip st order node rest :
  dot_inv rt h head st order → q st = node :: rest → node ∈ seen st →
  dot_inv rt h head
    (mkDot (graph st) (seen st) (next_id st) (node_to_id st) rest) order.
Proof.
  intros [Hnd Hseen Hgraph Hdom Hwf Hclosed Hreach Hhead] Hq Hnode.
  rewrite Hq in *. split; cbn; try done.
  - intros r c Hr Hc. destruct (Hclosed r c Hr Hc) as [?|Hin]; [by left|].
    apply elem_of_cons in Hin as [->|?]; [by left | by right].
  - intros r [?|?]; apply Hreach; [by left | right; by right].
  - destruct Hhead as [?|Hin]; [by left|].
    apply elem_of_cons in Hin as [->|?]; [by left | by right].
Qed.

Lemma dot_inv_visit st order node rest :
  dot_inv rt h head st order → q st = node :: rest → node ∉ seen st →
  dot_inv rt h head
    (dot_visit rt h node
       (mkDot (graph st) (seen st) (next_id st) (node_to_id st) rest))
    (order ++ [node]).
Proof.
  intros [Hnd Hseen Hgraph Hdom Hwf Hclosed Hreach Hhead] Hq Hnode.
  set (st1 := mkDot _ _ _ _ rest).
  assert (Hwf1 : ids_wf st1) by done.
  destruct (dot_visit_spec node st1 Hwf1)
    as (Hs & Hq' & Hsub & Hwf' & Hid & Hids & Hg).
  cbn in Hs, Hq', Hsub, Hg.
  assert (Hnode_reach : reachable h head node).
  { apply Hreach. right. rewrite Hq. by left. }
  split.
  - apply NoDup_app. split_and!; [done| |apply NoDup_singleton].
    intros r Hr ->%list_elem_of_singleton. by apply Hnode, Hseen.
  - intros r. rewrite Hs, elem_of_app, elem_of_union, Hseen,
      list_elem_of_singleton, elem_of_singleton. done.
  - rewrite Hg, Hgraph, bind_app, bind_singleton. f_equal.
    symmetry. by apply order_lines_weaken.
  - intros r [Hr| ->%list_elem_of_singleton]%elem_of_app; [|done].
    destruct (Hdom r Hr) as [[i Hi] Hchildren]. split.
    + exists i. by eapply lookup_weaken.
    + intros c Hc. destruct (Hchildren c Hc) as [j Hj].
      exists j. by eapply lookup_weaken.
  - done.
  - intros r c. rewrite Hs, Hq', elem_of_union, elem_of_singleton.
    intros [Hr| ->] Hc.
    + destruct (Hclosed r c Hr Hc) as [?|Hin];
        [left; by apply elem_of_union_l|].
      rewrite Hq in Hin. apply elem_of_cons in Hin as [->|?].
      * left. by apply elem_of_union_r, elem_of_singleton.
      * right. apply elem_of_app. by right.
    + right. apply elem_of_app. left.
      by apply elem_of_reverse, elem_of_elements.
  - intros r. rewrite Hs, Hq', elem_of_union, elem_of_singleton,
      elem_of_app, elem_of_reverse, elem_of_elements.
    intros [[?| ->]|[Hc|?]].
    + apply Hreach. by left.
    + done.
    + by eapply rtc_r.
    + apply Hreach. right. rewrite Hq. by right.
  - rewrite Hs. destruct Hhead as [?|Hin]; [left; by apply elem_of_union_l|].
    rewrite Hq in Hin. apply elem_of_cons in Hin as [->|?].
    + left. apply elem_of_union_r. by apply elem_of_singleton.
    + right. rewrite Hq'. apply elem_of_app. by right.
Qed.

Lemma dot_loop_inv fuel st order :
  dot_inv rt h head st order → dot_measure h st ≤ fuel →
  ∃ st' order',
    dot_loop rt h fuel st = Some st'
    ∧ dot_inv rt h head st' order' ∧ q st' = [].
Proof.
  revert st order. induction fuel as [|fuel IH]; intros st order Hinv Hm.
  - unfold dot_measure in Hm. cbn.
    destruct (q st) eqn:Hq; [by exists st, order | cbn in Hm; lia].
  - cbn. destruct (q st) as [|node rest] eqn:Hq; [by exists st, order|].
    assert (Hpop : S (dot_measure h
              (mkDot (graph st) (seen st) (next_id st) (node_to_id st) rest))
            = dot_measure h st).
    { unfold dot_measure. cbn. by rewrite Hq. }
    case_decide as Hnode.
    + apply (IH _ order); [by eapply dot_inv_skip | lia].
    + apply (IH _ (order ++ [node])); [by apply dot_inv_visit|].
      rewrite dot_visit_measure; [lia | apply Hinv | done].
Qed.

(** The nodes seen when the loop ends are the nodes reachable from
    [head]. *)
Lemma dot_inv_final st order r :
  dot_inv rt h head st order → q st = [] →
  r ∈ order ↔ reachable h head r.
Proof.
  intros [Hnd Hseen Hgraph Hdom Hwf Hclosed Hreach Hhead] Hq.
  rewrite Hq in *. rewrite Hseen. split.
  - intros Hr. apply Hreach. by left.
  - revert r. unfold reachable. apply rtc_ind_r.
    + by destruct Hhead as [?|?%elem_of_nil].
    + intros x y _ Hedge IH.
      by destruct (Hclosed x y IH Hedge) as [?|?%elem_of_nil].
Qed.
End dot.

(** C2. With no running event loop, or with no current task, the call
    returns the node of the caller's frame as the head of a straight line:
    the store holds one frame node per frame of the chain from the caller to
    the entry point, in that order and nothing else (so no error node); the
    node of a frame is awaited by exactly the node of the frame that called
    it, the node of the outermost frame by nothing; and the result is the
    same whatever the awaitables of the runtime are. *)
Theorem fallback_is_linear_chain (rt : Runtime) (fuel : nat) (frame : Frame) :
  current_task rt = None →
  ∃ h : list AsyncGraphNode,
    get_async_graph rt fuel frame = Returned (h, Some 0)
    ∧ kind <$> h !! 0 = Some (AsyncGraphNodeFrame frame)
    ∧ length h = length (frame_chain frame)
    ∧ (∀ i f, frame_chain frame !! i = Some f →
         h !! i = Some (mkNode (AsyncGraphNodeFrame f)
                    (if decide (S i < length (frame_chain frame))
                     then {[S i]} else ∅)))
    ∧ (∀ n, n ∈ h → ∃ f, f ∈ frame_chain frame
                        ∧ kind n = AsyncGraphNodeFrame f)
    ∧ (∀ rt' fuel', current_task rt' = None →
         get_async_graph rt' fuel' frame = Returned (h, Some 0)).
Proof.
  intros Hmode. exists (chain_nodes 0 (frame_chain frame)).
  assert (Hrun : ∀ rt' fuel', current_task rt' = None →
            get_async_graph rt' fuel' frame
            = Returned (chain_nodes 0 (frame_chain frame), Some 0)).
  { intros rt' fuel' Hnone. unfold get_async_graph. rewrite Hnone.
    unfold fallback, new_node.
    by rewrite (fallback_walk_chain frame []). }
  split; [by apply Hrun|].
  split.
  { by rewrite (chain_nodes_lookup 0 _ 0 frame (frame_chain_head frame)). }
  split; [apply chain_nodes_length|].
  split; [intros i f Hi; by rewrite (chain_nodes_lookup 0 _ i f Hi)|].
  split; [apply chain_nodes_kind | exact Hrun].
Qed.

(** C7. The worklist terminates on every finite awaiter graph: for a finite
    set [U] of awaitables that holds the current task and every awaiter read
    from an awaitable of [U], the loop empties [node_q] within [size U]
    rounds, with the same final state for any larger bound, and
    [get_async_graph] never runs out of rounds. *)
Theorem drain_terminates (rt : Runtime) (cur : nat) (U : gset nat)
    (st0 : DrainState) (task_node task_head_node : nat) :
  drain_init rt cur = (st0, task_node, task_head_node) →
  cur ∈ U →
  awaiters_closed rt U →
  ∃ st : DrainState,
    node_q st = []
    ∧ (∀ fuel, size U ≤ fuel → drain rt fuel st0 = Some st)
    ∧ (∀ fuel frame, size U ≤ fuel → current_task rt = Some cur →
         get_async_graph rt fuel frame ≠ OutOfFuel).
Proof.
  intros Hinit Hcur Hclosed.
  destruct (drain_init_wf rt cur st0 _ _ Hinit) as (Hwf & Htn & _ & Hq & Hmap).
  assert (Hcl0 : drain_closed rt U st0).
  { intros r b. rewrite Hq. intros ->%list_elem_of_singleton.
    revert Hinit. unfold drain_init, call_makeAsyncGraphNodes.
    intros [= <- <- <-]. cbn. intros Hb.
    specialize (Hclosed cur Hcur). rewrite Forall_forall in Hclosed.
    by apply Hclosed. }
  assert (Hm0 : drain_measure U st0 ≤ size U).
  { unfold drain_measure. rewrite Hq, Hmap, dom_singleton_L. cbn.
    replace U with ({[cur]} ∪ U ∖ {[cur]}) at 2.
    - pose proof (size_union (C:=gset nat) {[cur]} (U ∖ {[cur]})) as Hsize.
      rewrite Hsize by set_solver. by rewrite size_singleton.
    - apply set_eq. intros x. destruct (decide (x = cur)); set_solver. }
  destruct (drain_enough_fuel rt U Hclosed (size U) st0 Hwf Hcl0 Hm0)
    as [st Hst].
  exists st. split.
  { by destruct (drain_wf_preserved rt _ _ _ Hst Hwf) as (_ & _ & ?). }
  split; [intros fuel Hfuel; by eapply drain_more_fuel|].
  intros fuel frame Hfuel Hmode. unfold get_async_graph, cooperative.
  rewrite Hmode, Hinit, (drain_more_fuel rt _ fuel _ _ Hst Hfuel).
  by case_decide.
Qed.

(** C6. When the worklist ends with no terminal node recorded, the call
    stops on the failed assertion and returns no graph; so whenever the call
    returns in cooperative mode, some terminal node was recorded. *)
Theorem no_terminal_node_aborts (rt : Runtime) (fuel : nat) (frame : Frame)
    (cur : nat) (st0 st : DrainState) (task_node task_head_node : nat) :
  current_task rt = Some cur →
  drain_init rt cur = (st0, task_node, task_head_node) →
  drain rt fuel st0 = Some st →
  (terminal_async_nodes st = ∅ →
     get_async_graph rt fuel frame = AssertionError)
  ∧ (∀ res, get_async_graph rt fuel frame = Returned res →
       ∃ t, t ∈ terminal_async_nodes st).
Proof.
  intros Hmode Hinit Hrun. unfold get_async_graph, cooperative.
  rewrite Hmode, Hinit, Hrun. split.
  - intros ->. by rewrite size_empty.
  - intros res. case_decide as Hsize; [intros _|done].
    apply (size_pos_elem_of (C:=gset nat)). lia.
Qed.

(** C3. When the search finds the entry frame of the current task with a
    frame [f1] beyond it, the node wrapping [f1] is the first node placed
    after the top of the graph; it is added to the [awaited_by] of every
    terminal node of the worklist, and the frames from [f1] to the end of the
    chain are wrapped one node each, each awaited by exactly the next one and
    the last by nothing. *)
Theorem entry_found_fan_in (rt : Runtime) (fuel : nat) (frame : Frame)
    (cur : nat) (st0 st : DrainState) (task_node task_head_node : nat)
    (f1 : Frame) (h : list AsyncGraphNode) (head : option nat) :
  current_task rt = Some cur →
  drain_init rt cur = (st0, task_node, task_head_node) →
  drain rt fuel st0 = Some st →
  let g := top_graft (d_heap st) task_node task_head_node frame in
  g_frame g ≫= entry_search (cr_frame rt cur) = Some f1 →
  get_async_graph rt fuel frame = Returned (h, head) →
  let base := length (g_heap g) in
  (∃ e f0 fe, cr_frame rt cur = Some e ∧ g_frame g = Some f0
              ∧ fe ∈ frame_chain f0 ∧ f_id fe = f_id e
              ∧ f_back fe = Some f1)
  ∧ kind <$> h !! base = Some (AsyncGraphNodeFrame f1)
  ∧ (∀ t, t ∈ terminal_async_nodes st → base ∈ awaited_by_of h t)
  ∧ (∀ i f, frame_chain f1 !! i = Some f →
       h !! (base + i)
       = Some (mkNode (AsyncGraphNodeFrame f)
                 (if decide (S i < length (frame_chain f1))
                  then {[S (base + i)]} else ∅)))
  ∧ length h = base + length (frame_chain f1).
Proof.
  intros Hmode Hinit Hrun g Hfound Hret base.
  destruct (drained_wf rt fuel cur st0 st _ _ Hinit Hrun)
    as ([_ Hterm] & Htn & Hthn).
  destruct (top_graft_ext (d_heap st) _ _ frame Htn Hthn) as [[Hlen _] _].
  fold g in Hlen.
  assert (HT : ∀ t, t ∈ terminal_async_nodes st → t < length (g_heap g))
    by (intros t Ht; specialize (Hterm t Ht); lia).
  assert (Hh : h = fan_in (g_heap g) (elements (terminal_async_nodes st)) base
                   ++ chain_nodes base (frame_chain f1)).
  { revert Hret. unfold get_async_graph, cooperative.
    rewrite Hmode, Hinit, Hrun. case_decide; [|done].
    fold g. rewrite Hfound. cbn [bottom_graft]. intros [= <- _].
    by apply bottom_loop_shape. }
  assert (Hat : ∀ i f, frame_chain f1 !! i = Some f →
            h !! (base + i)
            = Some (mkNode (AsyncGraphNodeFrame f)
                      (if decide (S i < length (frame_chain f1))
                       then {[S (base + i)]} else ∅))).
  { intros i f Hi. rewrite Hh, lookup_app_r by (rewrite fan_in_length; lia).
    rewrite fan_in_length.
    replace (base + i - length (g_heap g)) with i by (unfold base; lia).
    by apply chain_nodes_lookup. }
  split.
  { destruct (g_frame g) as [f0|] eqn:Hf0; [|done]. cbn in Hfound.
    destruct (entry_search_found _ _ _ Hfound) as (e & fe & ? & ? & ? & ?).
    by exists e, f0, fe. }
  split.
  { specialize (Hat 0 f1 (frame_chain_head f1)).
    rewrite Nat.add_0_r in Hat. by rewrite Hat. }
  split.
  { intros t Ht. rewrite Hh. unfold awaited_by_of.
    rewrite lookup_app_l by (rewrite fan_in_length; by apply HT).
    apply fan_in_awaited_by; [by apply elem_of_elements | by apply HT]. }
  split; [exact Hat|].
  by rewrite Hh, length_app, fan_in_length, chain_nodes_length.
Qed.

(** Where the error node of the entry point goes.  When the search ends
    without meeting the entry frame of the current task, exactly one node is
    constructed after the top of the graph: the error node "Could not link
    current task to entry point.".  It is awaited by nothing, and it is
    added to the [awaited_by] of [tail_node], which is the node of the
    current task itself when the head node of the task is not a frame
    node. *)
Theorem entry_not_found_error_node (rt : Runtime) (fuel : nat)
    (frame : Frame) (cur : nat) (st0 st : DrainState)
    (task_node task_head_node t : nat) :
  current_task rt = Some cur →
  drain_init rt cur = (st0, task_node, task_head_node) →
  drain rt fuel st0 = Some st →
  t ∈ terminal_async_nodes st →
  let g := top_graft (d_heap st) task_node task_head_node frame in
  entry_not_found (cr_frame rt cur) (g_frame g) →
  let err := length (g_heap g) in
  ∃ h : list AsyncGraphNode,
    get_async_graph rt fuel frame = Returned (h, g_head_node g)
    ∧ h = add_awaited_by (g_heap g) (g_tail_node g) err
            ++ [mkNode (AsyncGraphNodeError
                          "Could not link current task to entry point." [])
                       ∅]
    ∧ err ∈ awaited_by_of h (g_tail_node g)
    ∧ awaited_by_of h err = ∅
    ∧ ((∀ f, kind <$> d_heap st !! task_head_node
             ≠ Some (AsyncGraphNodeFrame f)) →
       g_tail_node g = task_node ∧ g_heap g = d_heap st).
Proof.
  intros Hmode Hinit Hrun Ht g Hnf err.
  destruct (drained_wf rt fuel cur st0 st _ _ Hinit Hrun)
    as (_ & Htn & Hthn).
  destruct (top_graft_ext (d_heap st) _ _ frame Htn Hthn) as [_ Htail].
  fold g in Htail.
  exists (add_awaited_by (g_heap g) (g_tail_node g) err
            ++ [mkNode (AsyncGraphNodeError entry_error_text []) ∅]).
  split.
  { unfold get_async_graph. rewrite Hmode.
    rewrite (cooperative_returns rt fuel frame cur st0 st _ _ Hinit Hrun t Ht).
    cbn zeta. fold g. rewrite (entry_search_none _ _ Hnf).
    cbn [bottom_graft new_node]. fold err.
    unfold add_awaited_by. by rewrite alter_app_l. }
  split; [done|]. split; [|split].
  - unfold awaited_by_of. rewrite lookup_app_l
      by (by rewrite add_awaited_by_length).
    fold (awaited_by_of (add_awaited_by (g_heap g) (g_tail_node g) err)
                        (g_tail_node g)).
    rewrite awaited_by_of_add, decide_True by done. set_solver.
  - unfold awaited_by_of. rewrite lookup_app_r
      by (by rewrite add_awaited_by_length).
    by rewrite add_awaited_by_length, Nat.sub_diag.
  - intros Hkind. subst g. unfold top_graft.
    destruct (kind <$> d_heap st !! task_head_node) as [[a|f|? ?]|];
      try done. by destruct (Hkind f).
Qed.

(** C5. In cooperative mode, with a frame node as the head node of the
    current task, when the caller's frame chain ends before the exit frame
    recorded in that node, the call returns (it does not stop on an
    exception); the frames of the caller's chain are wrapped one node each,
    linked in order, and the node of the last frame is awaited by an error
    node whose text is "Could not find exit frame for current task". *)
Theorem exit_frame_not_found_error_node (rt : Runtime) (fuel : nat)
    (frame : Frame) (cur : nat) (st0 st : DrainState)
    (task_node task_head_node t : nat) (exit : Frame) :
  current_task rt = Some cur →
  drain_init rt cur = (st0, task_node, task_head_node) →
  drain rt fuel st0 = Some st →
  t ∈ terminal_async_nodes st →
  kind <$> d_heap st !! task_head_node = Some (AsyncGraphNodeFrame exit) →
  (∀ f, f ∈ frame_chain frame → f_id f ≠ f_id exit) →
  let base := length (d_heap st) in
  let k := length (frame_chain frame) in
  ∃ (h : list AsyncGraphNode) (f_last : Frame),
    get_async_graph rt fuel frame = Returned (h, Some base)
    ∧ (∀ i f, frame_chain frame !! i = Some f →
         h !! (base + i)
         = Some (mkNode (AsyncGraphNodeFrame f) {[S (base + i)]}))
    ∧ last (frame_chain frame) = Some f_last
    ∧ h !! (base + k - 1)
      = Some (mkNode (AsyncGraphNodeFrame f_last) {[base + k]})
    ∧ kind <$> h !! (base + k)
      = Some (AsyncGraphNodeError
                "Could not find exit frame for current task" []).
Proof.
  intros Hmode Hinit Hrun Ht Hkind Hne base k.
  pose proof (cooperative_exit_not_found rt fuel frame cur st0 st _ _
                Hinit Hrun t exit Ht Hkind Hne) as Hret.
  cbn zeta in Hret. fold base k in Hret.
  assert (Hk : 0 < k) by (unfold k; destruct frame as [? ? [?|]]; cbn; lia).
  destruct (last (frame_chain frame)) as [f_last|] eqn:Hlast;
    [|apply last_None in Hlast; unfold k in Hk; rewrite Hlast in Hk;
      cbn in Hk; lia].
  eexists _, f_last. split; [unfold get_async_graph; by rewrite Hmode|].
  assert (Hat : ∀ i f, frame_chain frame !! i = Some f →
            (d_heap st ++ linked_nodes base (frame_chain frame) ++
              [mkNode (AsyncGraphNodeError exit_error_text [])
                 {[task_head_node; S (base + k)]};
               mkNode (AsyncGraphNodeError entry_error_text []) ∅])
              !! (base + i)
            = Some (mkNode (AsyncGraphNodeFrame f) {[S (base + i)]})).
  { intros i f Hi. rewrite lookup_app_r by (unfold base; lia).
    replace (base + i - length (d_heap st)) with i by (unfold base; lia).
    rewrite lookup_app_l
      by (rewrite linked_nodes_length; by eapply lookup_lt_Some).
    by apply linked_nodes_lookup. }
  split; [exact Hat|]. split; [done|]. split.
  - rewrite last_lookup in Hlast. fold k in Hlast.
    replace (base + k - 1) with (base + pred k) by lia.
    rewrite (Hat _ _ Hlast). do 3 f_equal. lia.
  - rewrite lookup_app_r by (unfold base; lia).
    rewrite lookup_app_r by (rewrite linked_nodes_length; unfold base, k; lia).
    rewrite linked_nodes_length.
    by replace (base + k - length (d_heap st) - length (frame_chain frame))
      with 0 by (unfold base, k; lia).
Qed.

(** C10. In the same situation the error node of the exit frame is not a
    sink of the returned graph: it is awaited by the head node of the current
    task and by the error node "Could not link current task to entry
    point.", two different nodes, the second one awaited by nothing. *)
Theorem exit_error_node_not_a_sink (rt : Runtime) (fuel : nat)
    (frame : Frame) (cur : nat) (st0 st : DrainState)
    (task_node task_head_node t : nat) (exit : Frame) :
  current_task rt = Some cur →
  drain_init rt cur = (st0, task_node, task_head_node) →
  drain rt fuel st0 = Some st →
  t ∈ terminal_async_nodes st →
  kind <$> d_heap st !! task_head_node = Some (AsyncGraphNodeFrame exit) →
  (∀ f, f ∈ frame_chain frame → f_id f ≠ f_id exit) →
  let exit_err := length (d_heap st) + length (frame_chain frame) in
  let entry_err := S exit_err in
  ∃ (h : list AsyncGraphNode) (head : option nat),
    get_async_graph rt fuel frame = Returned (h, head)
    ∧ kind <$> h !! exit_err
      = Some (AsyncGraphNodeError
                "Could not find exit frame for current task" [])
    ∧ awaited_by_of h exit_err = {[task_head_node; entry_err]}
    ∧ task_head_node ≠ entry_err
    ∧ h !! entry_err
      = Some (mkNode (AsyncGraphNodeError
                        "Could not link current task to entry point." [])
                     ∅).
Proof.
  intros Hmode Hinit Hrun Ht Hkind Hne exit_err entry_err.
  pose proof (cooperative_exit_not_found rt fuel frame cur st0 st _ _
                Hinit Hrun t exit Ht Hkind Hne) as Hret.
  cbn zeta in Hret. fold exit_err in Hret. fold entry_err in Hret.
  destruct (drained_wf rt fuel cur st0 st _ _ Hinit Hrun) as (_ & _ & Hthn).
  eexists _, _. split; [unfold get_async_graph; by rewrite Hmode|].
  assert (Hskip : ∀ j, (d_heap st
              ++ linked_nodes (length (d_heap st)) (frame_chain frame)
              ++ [mkNode (AsyncGraphNodeError exit_error_text [])
                    {[task_head_node; entry_err]};
                  mkNode (AsyncGraphNodeError entry_error_text []) ∅])
            !! (exit_err + j)
          = [mkNode (AsyncGraphNodeError exit_error_text [])
               {[task_head_node; entry_err]};
             mkNode (AsyncGraphNodeError entry_error_text []) ∅] !! j).
  { intros j. rewrite lookup_app_r by (unfold exit_err; lia).
    rewrite lookup_app_r
      by (rewrite linked_nodes_length; unfold exit_err; lia).
    rewrite linked_nodes_length. f_equal. unfold exit_err. lia. }
  pose proof (Hskip 0) as H0. pose proof (Hskip 1) as H1.
  rewrite Nat.add_0_r in H0. rewrite Nat.add_1_r in H1.
  fold entry_err in H1. unfold awaited_by_of. rewrite H0, H1.
  repeat split; try done. unfold entry_err, exit_err. lia.
Qed.

(** C9. On every store (a finite graph, with or without nodes that meet
    again or cycles) the rendering ends within one round more than the store
    has edges.  The nodes it visits are the nodes reachable from [head], each
    once; the lines of the document are, for each visited node in turn, its
    vertex line and then one edge line for each element of its [awaited_by];
    different reachable nodes carry different identifiers, so no line of the
    document occurs twice, and the lines are exactly the vertex lines of the
    reachable nodes and the edge lines of the edges that leave them. *)
Theorem dot_emits_each_node_and_edge_once (rt : Runtime)
    (h : list AsyncGraphNode) (head : nat) :
  ∃ (st : DotState) (order : list nat),
    let id := ids (node_to_id st) in
    (∀ fuel, total_edges h < fuel →
       dot_loop rt h fuel (dot_init head) = Some st
       ∧ async_graph_to_dot rt h fuel head = Some (document (graph st)))
    ∧ NoDup order
    ∧ (∀ r, r ∈ order ↔ reachable h head r)
    ∧ graph st = order ≫= node_lines rt h id
    ∧ (∀ r r', reachable h head r → reachable h head r' →
         id r = id r' → r = r')
    ∧ NoDup (graph st)
    ∧ (∀ l, l ∈ graph st ↔
         (∃ r, reachable h head r
               ∧ l = VertexLine (id r) (escape_label (node_str rt h r)))
         ∨ (∃ r c, reachable h head r ∧ c ∈ awaited_by_of h r
                   ∧ l = EdgeLine (id r) (id c))).
Proof.
  destruct (dot_loop_inv rt h head (S (total_edges h)) (dot_init head) [])
    as (st & order & Hrun & Hinv & Hq).
  { apply dot_inv_init. }
  { unfold dot_measure. cbn. by rewrite pending_empty. }
  exists st, order. intros id.
  pose proof (λ r, dot_inv_final rt h head st order r Hinv Hq) as Hfinal.
  destruct Hinv as [Hnd Hseen Hgraph Hdom [Hinj _] Hclosed Hreach Hhead].
  fold id in Hgraph.
  assert (Hid : ∀ r, reachable h head r → node_to_id st !! r = Some (id r)).
  { intros r Hr. apply Hfinal, Hdom in Hr as [[i Hi] _].
    unfold id, ids. by rewrite Hi. }
  assert (Hid_inj : ∀ r r', reachable h head r → reachable h head r' →
            id r = id r' → r = r').
  { intros r r' Hr Hr' Heq. apply (Hinj r r' (id r)); [by apply Hid|].
    rewrite Heq. by apply Hid. }
  assert (Hchild : ∀ r c, reachable h head r → c ∈ awaited_by_of h r →
            reachable h head c) by (intros r c Hr Hc; by eapply rtc_r).
  split.
  { intros fuel Hfuel.
    assert (Hmore : dot_loop rt h fuel (dot_init head) = Some st)
      by (eapply dot_loop_more_fuel; [exact Hrun | lia]).
    split; [done|]. unfold async_graph_to_dot. by rewrite Hmore. }
  split; [done|]. split; [done|]. split; [done|]. split; [done|]. split.
  - rewrite Hgraph. apply NoDup_bind; [| |done].
    + intros r1 r2 l Hr1%Hfinal Hr2%Hfinal.
      rewrite !elem_of_node_lines.
      intros [->|(c1 & _ & ->)] [Heq|(c2 & _ & Heq)]; simplify_eq;
        by apply Hid_inj.
    + intros r Hr%Hfinal. apply node_lines_NoDup.
      intros c c' Hc Hc'. apply Hid_inj; by eapply Hchild.
  - intros l. rewrite Hgraph, list_elem_of_bind. split.
    + intros (r & Hl & Hr%Hfinal). apply elem_of_node_lines in Hl.
      destruct Hl as [->|(c & Hc & ->)]; [left; by exists r|].
      right. by exists r, c.
    + intros [(r & Hr & ->)|(r & c & Hr & Hc & ->)];
        exists r; (split; [|by apply Hfinal]); apply elem_of_node_lines.
      * by left.
      * right. by exists c.
Qed.

(** ** The programs above *)

Lemma reachable_from_sink (h : list AsyncGraphNode) (x y : nat) :
  awaited_by_of h x = ∅ → reachable h x y → y = x.
Proof.
  intros Hsink Hreach. destruct Hreach as [|x y z Hedge _]; [done|].
  unfold edge in Hedge. rewrite Hsink in Hedge. set_solver.
Qed.

Lemma replace_by_itself (c : ascii) (s : string) :
  replace c (String c EmptyString) s = s.
Proof.
  induction s as [|d s IH]; [done|]. cbn.
  destruct (Ascii.eqb_spec d c) as [->|_]; cbn; by rewrite IH.
Qed.

(** C1, on [ex_diamond].  The task 13 is reached from 12 and from 11.  Its
    expansion returns node 3 as tail and the frame node 4 as head; the
    dictionary keeps node 3 for it.  The node of 12 is awaited by the head
    node 4, the node of 11 by the tail node 3, and no other node is awaited
    by node 4: the two edges do not meet in one node. *)
Theorem diamond_edges_do_not_converge :
  ∃ st h head,
    drain ex_diamond 4 (drain_init ex_diamond 10).1.1 = Some st
    ∧ get_async_graph ex_diamond 4 ex_caller = Returned (h, head)
    ∧ (call_makeAsyncGraphNodes ex_diamond (take 3 h) 13).2 = 4
    ∧ awaitable_to_head_node st !! 13 = Some 3
    ∧ kind <$> h !! 1 = Some (AsyncGraphNodeAsyncGraphAwaitable 11)
    ∧ kind <$> h !! 2 = Some (AsyncGraphNodeAsyncGraphAwaitable 12)
    ∧ kind <$> h !! 3 = Some (AsyncGraphNodeAsyncGraphAwaitable 13)
    ∧ kind <$> h !! 4 = Some (AsyncGraphNodeFrame ex_waiter)
    ∧ awaited_by_of h 2 = {[4]}
    ∧ awaited_by_of h 1 = {[3]}
    ∧ (∀ r, r < length h → 4 ∈ awaited_by_of h r → r = 2).
Proof.
  exists (ex_drained ex_diamond 4 10), (ex_graph ex_diamond 4 ex_caller), (Some 0).
  repeat split; try (vm_compute; reflexivity).
  intros r Hr. vm_compute in Hr.
  do 7 (destruct r as [|r]; [vm_compute; set_solver|]). lia.
Qed.

(** C8, on [ex_quoted_heap].  The second replacement of line 249 changes
    nothing, so the label is the text with its newlines replaced and its
    double quotes as they were; the vertex line of the node has a bare
    double quote inside the quoted label. *)
Theorem quote_is_not_escaped :
  (∀ s, escape_label s
        = replace newline (String backslash (String "n" EmptyString)) s)
  ∧ escape_label ex_quoted
    = String "a" (String dquote (String "b" (String backslash "nc")))
  ∧ async_graph_to_dot ex_idle ex_quoted_heap 1 0
    = Some ("digraph {" +:+ String newline
              ("  n1 [label=" +:+ String dquote
                 ("a" +:+ String dquote
                    ("b" +:+ String backslash
                       ("nc" +:+ String dquote
                          (" shape=box];" +:+ String newline
                             ("}" +:+ String newline EmptyString))))))).
Proof.
  split; [intros s; apply replace_by_itself|].
  split; vm_compute; reflexivity.
Qed.

(** C4, on [ex_lost].  The entry frame of the task is not on the stack of
    the caller.  The call returns a graph in which node 1, the node of the
    awaitable 11, is the one terminal node; line 208 has added the error
    node, node 2, to the [awaited_by] of [tail_node], the node of the
    current task, and node 1 is awaited by nothing: no error node is the
    sink that the terminal node leads to. *)
Lemma entry_error_not_reached_from_terminal :
  let st := ex_drained ex_lost 2 10 in
  let h := ex_graph ex_lost 2 ex_caller in
  drain ex_lost 2 (drain_init ex_lost 10).1.1 = Some st
  ∧ get_async_graph ex_lost 2 ex_caller = Returned (h, Some 0)
  ∧ entry_not_found (cr_frame ex_lost 10) (Some ex_caller)
  ∧ terminal_async_nodes st = {[1]}
  ∧ ¬ ∃ e, kind <$> h !! e
           = Some (AsyncGraphNodeError entry_error_text [])
           ∧ unique_sink_of h (terminal_async_nodes st) e.
Proof.
  intros st h.
  split; [vm_compute; reflexivity|].
  split; [vm_compute; reflexivity|].
  split.
  { intros f0 f [= <-] Hf. vm_compute in Hf.
    repeat (apply elem_of_cons in Hf as [->|Hf]; [by vm_compute|]).
    by apply elem_of_nil in Hf. }
  split; [vm_compute; reflexivity|].
  intros (e & Hkind & Hsink).
  destruct (Hsink 1) as [Hreach _]; [vm_compute; set_solver|].
  apply reachable_from_sink in Hreach; [|vm_compute; reflexivity].
  subst e. vm_compute in Hkind. discriminate.
Qed.

(** ** Instances of the theorems on the programs above *)

(** Settles a decidable closed goal by evaluating its decision. *)
Ltac by_evaluation :=
  match goal with
  | |- ?P => refine (bool_decide_unpack P _); vm_compute; exact I
  end.

Lemma fallback_is_linear_chain_witness :
  current_task ex_idle = None
  ∧ ∃ h, get_async_graph ex_idle 0 ex_caller = Returned (h, Some 0)
         ∧ length h = 4.
Proof.
  split; [reflexivity|].
  destruct (fallback_is_linear_chain ex_idle 0 ex_caller eq_refl)
    as (h & Hret & _ & Hlen & _).
  exists h. split; [exact Hret | exact Hlen].
Defined.

Lemma drain_terminates_witness :
  10 ∈ ({[10; 11; 12; 13]} : gset nat)
  ∧ awaiters_closed ex_diamond {[10; 11; 12; 13]}
  ∧ ∃ st, node_q st = []
          ∧ drain ex_diamond 4 (drain_init ex_diamond 10).1.1 = Some st.
Proof.
  assert (Hcur : 10 ∈ ({[10; 11; 12; 13]} : gset nat))
    by by_evaluation.
  assert (Hclosed : awaiters_closed ex_diamond {[10; 11; 12; 13]})
    by by_evaluation.
  split; [exact Hcur|]. split; [exact Hclosed|].
  destruct (drain_terminates ex_diamond 10 {[10; 11; 12; 13]}
              (drain_init ex_diamond 10).1.1 0 0 eq_refl Hcur Hclosed)
    as (st & Hq & Hrun & _).
  exists st. split; [exact Hq|]. apply Hrun. vm_compute. lia.
Defined.

Lemma no_terminal_node_aborts_witness :
  drain ex_cycle 2 (drain_init ex_cycle 10).1.1
  = Some (ex_drained ex_cycle 2 10)
  ∧ terminal_async_nodes (ex_drained ex_cycle 2 10) = ∅
  ∧ get_async_graph ex_cycle 2 ex_caller = AssertionError.
Proof.
  assert (Hrun : drain ex_cycle 2 (drain_init ex_cycle 10).1.1
                 = Some (ex_drained ex_cycle 2 10))
    by (vm_compute; reflexivity).
  assert (Hempty : terminal_async_nodes (ex_drained ex_cycle 2 10) = ∅)
    by (vm_compute; reflexivity).
  split; [exact Hrun|]. split; [exact Hempty|].
  destruct (no_terminal_node_aborts ex_cycle 2 ex_caller 10
              (drain_init ex_cycle 10).1.1 (ex_drained ex_cycle 2 10) 0 0
              eq_refl eq_refl Hrun) as [Habort _].
  exact (Habort Hempty).
Defined.

Lemma entry_found_fan_in_witness :
  drain ex_diamond 4 (drain_init ex_diamond 10).1.1
  = Some (ex_drained ex_diamond 4 10)
  ∧ get_async_graph ex_diamond 4 ex_caller
    = Returned (ex_graph ex_diamond 4 ex_caller, Some 0)
  ∧ terminal_async_nodes (ex_drained ex_diamond 4 10) = {[3]}
  ∧ 5 ∈ awaited_by_of (ex_graph ex_diamond 4 ex_caller) 3
  ∧ kind <$> ex_graph ex_diamond 4 ex_caller !! 5
    = Some (AsyncGraphNodeFrame ex_run).
Proof.
  assert (Hrun : drain ex_diamond 4 (drain_init ex_diamond 10).1.1
                 = Some (ex_drained ex_diamond 4 10))
    by (vm_compute; reflexivity).
  assert (Hret : get_async_graph ex_diamond 4 ex_caller
                 = Returned (ex_graph ex_diamond 4 ex_caller, Some 0))
    by (vm_compute; reflexivity).
  assert (Hterm : terminal_async_nodes (ex_drained ex_diamond 4 10) = {[3]})
    by (vm_compute; reflexivity).
  split; [exact Hrun|]. split; [exact Hret|]. split; [exact Hterm|].
  destruct (entry_found_fan_in ex_diamond 4 ex_caller 10
              (drain_init ex_diamond 10).1.1 (ex_drained ex_diamond 4 10)
              0 0 ex_run (ex_graph ex_diamond 4 ex_caller) (Some 0)
              eq_refl eq_refl Hrun eq_refl Hret)
    as (_ & Hfirst & Hfan & _).
  split; [|exact Hfirst].
  apply (Hfan 3). rewrite Hterm. by_evaluation.
Defined.

Lemma entry_not_found_error_node_witness :
  drain ex_lost 2 (drain_init ex_lost 10).1.1
  = Some (ex_drained ex_lost 2 10)
  ∧ 1 ∈ terminal_async_nodes (ex_drained ex_lost 2 10)
  ∧ entry_not_found (cr_frame ex_lost 10) (Some ex_caller)
  ∧ ∃ h, get_async_graph ex_lost 2 ex_caller = Returned (h, Some 0)
         ∧ 2 ∈ awaited_by_of h 0.
Proof.
  assert (Hrun : drain ex_lost 2 (drain_init ex_lost 10).1.1
                 = Some (ex_drained ex_lost 2 10))
    by (vm_compute; reflexivity).
  assert (Hterm : 1 ∈ terminal_async_nodes (ex_drained ex_lost 2 10))
    by by_evaluation.
  assert (Hnf : entry_not_found (cr_frame ex_lost 10) (Some ex_caller)).
  { intros f0 f Hf0 Hf. injection Hf0 as <-. vm_compute in Hf.
    repeat (apply elem_of_cons in Hf as [->|Hf];
            [vm_compute; discriminate|]).
    by apply elem_of_nil in Hf. }
  split; [exact Hrun|]. split; [exact Hterm|]. split; [exact Hnf|].
  destruct (entry_not_found_error_node ex_lost 2 ex_caller 10
              (drain_init ex_lost 10).1.1 (ex_drained ex_lost 2 10)
              0 0 1 eq_refl eq_refl Hrun Hterm Hnf)
    as (h & Hret & _ & Hedge & _).
  exists h. split; [exact Hret | exact Hedge].
Defined.

Lemma ex_task_chain_misses_exit (f : Frame) :
  f ∈ frame_chain ex_caller → f_id f ≠ f_id ex_elsewhere.
Proof.
  intros Hf. vm_compute in Hf.
  repeat (apply elem_of_cons in Hf as [->|Hf]; [vm_compute; lia|]).
  by apply elem_of_nil in Hf.
Qed.

Lemma exit_frame_not_found_error_node_witness :
  drain ex_task 1 (drain_init ex_task 10).1.1
  = Some (ex_drained ex_task 1 10)
  ∧ 0 ∈ terminal_async_nodes (ex_drained ex_task 1 10)
  ∧ kind <$> d_heap (ex_drained ex_task 1 10) !! 1
    = Some (AsyncGraphNodeFrame ex_elsewhere)
  ∧ ∃ h, get_async_graph ex_task 1 ex_caller = Returned (h, Some 2)
         ∧ kind <$> h !! 6
           = Some (AsyncGraphNodeError
                     "Could not find exit frame for current task" []).
Proof.
  assert (Hrun : drain ex_task 1 (drain_init ex_task 10).1.1
                 = Some (ex_drained ex_task 1 10))
    by (vm_compute; reflexivity).
  assert (Hterm : 0 ∈ terminal_async_nodes (ex_drained ex_task 1 10))
    by by_evaluation.
  assert (Hkind : kind <$> d_heap (ex_drained ex_task 1 10) !! 1
                  = Some (AsyncGraphNodeFrame ex_elsewhere))
    by (vm_compute; reflexivity).
  split; [exact Hrun|]. split; [exact Hterm|]. split; [exact Hkind|].
  destruct (exit_frame_not_found_error_node ex_task 1 ex_caller 10
              (drain_init ex_task 10).1.1 (ex_drained ex_task 1 10)
              0 1 0 ex_elsewhere eq_refl eq_refl Hrun Hterm Hkind
              ex_task_chain_misses_exit)
    as (h & f_last & Hret & _ & _ & _ & Herr).
  exists h. split; [exact Hret | exact Herr].
Defined.

Lemma exit_error_node_not_a_sink_witness :
  drain ex_task 1 (drain_init ex_task 10).1.1
  = Some (ex_drained ex_task 1 10)
  ∧ 0 ∈ terminal_async_nodes (ex_drained ex_task 1 10)
  ∧ kind <$> d_heap (ex_drained ex_task 1 10) !! 1
    = Some (AsyncGraphNodeFrame ex_elsewhere)
  ∧ ∃ h head, get_async_graph ex_task 1 ex_caller = Returned (h, head)
              ∧ awaited_by_of h 6 = {[1; 7]}.
Proof.
  assert (Hrun : drain ex_task 1 (drain_init ex_task 10).1.1
                 = Some (ex_drained ex_task 1 10))
    by (vm_compute; reflexivity).
  assert (Hterm : 0 ∈ terminal_async_nodes (ex_drained ex_task 1 10))
    by by_evaluation.
  assert (Hkind : kind <$> d_heap (ex_drained ex_task 1 10) !! 1
                  = Some (AsyncGraphNodeFrame ex_elsewhere))
    by (vm_compute; reflexivity).
  split; [exact Hrun|]. split; [exact Hterm|]. split; [exact Hkind|].
  destruct (exit_error_node_not_a_sink ex_task 1 ex_caller 10
              (drain_init ex_task 10).1.1 (ex_drained ex_task 1 10)
              0 1 0 ex_elsewhere eq_refl eq_refl Hrun Hterm Hkind
              ex_task_chain_misses_exit)
    as (h & head & Hret & _ & Hedges & _).
  exists h, head. split; [exact Hret | exact Hedges].
Defined.

(** * Further properties of the rendering of labels *)

Section labels.
Implicit Types (s : string) (c : ascii).

Lemma string_app_cons (d : ascii) s1 s2 :
  String d s1 +:+ s2 = String d (s1 +:+ s2).
Proof. reflexivity. Qed.

Lemma string_app_assoc s1 s2 s3 :
  (s1 +:+ s2) +:+ s3 = s1 +:+ (s2 +:+ s3).
Proof.
  induction s1 as [|d s1 IH]; [done|].
  by rewrite !string_app_cons, IH.
Qed.

Lemma replace_app c new s1 s2 :
  replace c new (s1 +:+ s2) = replace c new s1 +:+ replace c new s2.
Proof.
  induction s1 as [|d s1 IH]; [done|].
  rewrite string_app_cons. cbn [replace]. rewrite IH.
  destruct (Ascii.eqb d c); [|done].
  by rewrite string_app_assoc.
Qed.

Lemma occurrences_app c s1 s2 :
  occurrences c (s1 +:+ s2) = occurrences c s1 + occurrences c s2.
Proof.
  induction s1 as [|d s1 IH]; [done|].
  rewrite string_app_cons. cbn [occurrences]. rewrite IH. lia.
Qed.

Lemma length_string_app s1 s2 :
  String.length (s1 +:+ s2) = String.length s1 + String.length s2.
Proof.
  induction s1 as [|d s1 IH]; [done|].
  rewrite string_app_cons. cbn [String.length]. by rewrite IH.
Qed.

Lemma occurrences_replace c new s :
  occurrences c new = 0 → occurrences c (replace c new s) = 0.
Proof.
  intros Hnew. induction s as [|d s IH]; [done|]. cbn.
  destruct (Ascii.eqb d c) eqn:Hd.
  - rewrite occurrences_app. lia.
  - cbn. rewrite Hd. lia.
Qed.

Lemma length_replace c new s :
  String.length (replace c new s) + occurrences c s
  = String.length s + occurrences c s * String.length new.
Proof.
  induction s as [|d s IH]; [done|]. cbn.
  destruct (Ascii.eqb d c); cbn; rewrite ?length_string_app; lia.
Qed.

Lemma escape_label_newlines s :
  escape_label s
  = replace newline (String backslash (String "n" EmptyString)) s.
Proof. apply replace_by_itself. Qed.
End labels.

(** The label written for a node never holds a newline: whatever the text of
    the node, the vertex line is not broken by it. *)
Theorem escape_label_no_newline (s : string) :
  occurrences newline (escape_label s) = 0.
Proof. rewrite escape_label_newlines. by apply occurrences_replace. Qed.

(** The label is one character longer than the text for each newline of the
    text, and for nothing else: double quotes and backslashes add
    nothing. *)
Theorem escape_label_length (s : string) :
  String.length (escape_label s)
  = String.length s + occurrences newline s.
Proof.
  rewrite escape_label_newlines.
  pose proof (length_replace newline
                (String backslash (String "n" EmptyString)) s) as Hlen.
  cbn [String.length] in Hlen. lia.
Qed.

(** The label of a text written in two parts is the two labels one after
    the other. *)
Theorem escape_label_app (s1 s2 : string) :
  escape_label (s1 +:+ s2) = escape_label s1 +:+ escape_label s2.
Proof. rewrite !escape_label_newlines. apply replace_app. Qed.

(** The label is the text itself exactly when the text has no newline. *)
Theorem escape_label_fixed_iff (s : string) :
  escape_label s = s ↔ occurrences newline s = 0.
Proof.
  split.
  - intros Heq. pose proof (escape_label_length s) as Hlen.
    rewrite Heq in Hlen. lia.
  - rewrite escape_label_newlines.
    induction s as [|d s IH]; [done|]. cbn.
    destruct (Ascii.eqb d newline); [lia|]. intros Hs. by rewrite IH.
Qed.

(** * Further properties of get_async_graph *)

Section growth.
Implicit Types (h : list AsyncGraphNode) (T : gset nat).

Lemma heap_grows_refl h : heap_grows h h.
Proof. split; [done|]. intros r n Hr. by exists n. Qed.

Lemma heap_grows_trans h1 h2 h3 :
  heap_grows h1 h2 → heap_grows h2 h3 → heap_grows h1 h3.
Proof.
  intros [Hl1 Hn1] [Hl2 Hn2]. split; [lia|]. intros r n Hr.
  destruct (Hn1 r n Hr) as (n2 & Hr2 & Hk2 & Ha2).
  destruct (Hn2 r n2 Hr2) as (n3 & Hr3 & Hk3 & Ha3).
  exists n3. split_and!; [done | congruence | set_solver].
Qed.

Lemma heap_grows_app h l : heap_grows h (h ++ l).
Proof.
  split; [rewrite length_app; lia|]. intros r n Hr. exists n.
  split_and!; [by apply lookup_app_l_Some | done | done].
Qed.

Lemma heap_grows_add h node child :
  heap_grows h (add_awaited_by h node child).
Proof.
  split; [by rewrite add_awaited_by_length|]. intros r n Hr.
  unfold add_awaited_by. destruct (decide (node = r)) as [->|Hne].
  - exists (add_edge child n). rewrite list_lookup_alter_eq, Hr.
    split_and!; [done | done | cbn; set_solver].
  - exists n. by rewrite list_lookup_alter_ne.
Qed.

Lemma heap_grows_fan_in h ts new : heap_grows h (fan_in h ts new).
Proof.
  revert h. induction ts as [|t ts IH]; intros h; [apply heap_grows_refl|].
  eapply heap_grows_trans; [apply heap_grows_add | apply IH].
Qed.

Lemma heap_grows_awaited_by h h' r :
  heap_grows h h' → awaited_by_of h r ⊆ awaited_by_of h' r.
Proof.
  intros [_ Hn]. unfold awaited_by_of.
  destruct (h !! r) as [n|] eqn:Hr; [|set_solver].
  by destruct (Hn r n Hr) as (n' & -> & _ & ?).
Qed.

Lemma heap_grows_kind h h' r k :
  heap_grows h h' → kind <$> h !! r = Some k → kind <$> h' !! r = Some k.
Proof.
  intros [_ Hn] Hk. destruct (h !! r) as [n|] eqn:Hr; [|done].
  destruct (Hn r n Hr) as (n' & -> & Hkind & _). cbn in *. congruence.
Qed.
End growth.

(** Peels the outermost store operation off a [heap_grows] goal. *)
Ltac heap_grows_steps :=
  repeat first
    [ apply heap_grows_refl
    | eapply heap_grows_trans; [|apply heap_grows_add]
    | eapply heap_grows_trans; [|apply heap_grows_fan_in]
    | eapply heap_grows_trans; [|apply heap_grows_app] ].

Section phases_grow.
Implicit Types (h : list AsyncGraphNode) (T : gset nat).

Lemma visit_awaiter_grows rt node st b :
  heap_grows (d_heap st) (d_heap (visit_awaiter rt node st b)).
Proof.
  unfold visit_awaiter, call_makeAsyncGraphNodes.
  destruct (awaitable_to_head_node st !! b); cbn; heap_grows_steps.
Qed.

Lemma visit_awaiters_grows rt node bs st :
  heap_grows (d_heap st) (d_heap (foldl (visit_awaiter rt node) st bs)).
Proof.
  revert st. induction bs as [|b bs IH]; intros st; [apply heap_grows_refl|].
  eapply heap_grows_trans; [apply visit_awaiter_grows | apply IH].
Qed.

Lemma drain_grows rt fuel st st' :
  drain rt fuel st = Some st' → heap_grows (d_heap st) (d_heap st').
Proof.
  revert st. induction fuel as [|fuel IH]; intros st; cbn;
    destruct (node_q st) as [|node rest]; try done.
  - intros [= <-]. apply heap_grows_refl.
  - intros [= <-]. apply heap_grows_refl.
  - intros Hrun. eapply heap_grows_trans; [|by apply IH].
    unfold drain_step.
    match goal with
    | |- context [foldl _ ?s _] =>
        apply (visit_awaiters_grows rt node _ s)
    end.
Qed.

Lemma top_loop_grows exit frame h head tail :
  heap_grows h (g_heap (top_loop exit frame h head tail)).
Proof.
  revert h head tail.
  induction frame as [i s|i s b IH] using Frame_back_ind;
    intros h head tail; cbn [top_loop new_node];
    (destruct (frame_is _ exit); [apply heap_grows_refl|]).
  - destruct head; cbn; heap_grows_steps.
  - destruct head as [hd|]; cbn;
      (eapply heap_grows_trans; [|apply IH]); heap_grows_steps.
Qed.

Lemma top_graft_grows h task_node task_head_node frame :
  heap_grows h (g_heap (top_graft h task_node task_head_node frame)).
Proof.
  unfold top_graft.
  destruct (kind <$> h !! task_head_node) as [[a|e|t aws]|];
    cbn; try apply heap_grows_refl.
  eapply heap_grows_trans; [apply top_loop_grows | apply heap_grows_add].
Qed.

Lemma bottom_loop_grows T frame h tail :
  heap_grows h (bottom_loop T frame h tail).
Proof.
  revert h tail. induction frame as [i s|i s b IH] using Frame_back_ind;
    intros h tail; cbn [bottom_loop new_node].
  - destruct tail; [heap_grows_steps|].
    fold (fan_in (h ++ [mkNode (AsyncGraphNodeFrame (mkFrame i s None)) ∅])
                 (elements T) (length h)).
    heap_grows_steps.
  - eapply heap_grows_trans; [|apply IH]. destruct tail; [heap_grows_steps|].
    fold (fan_in
            (h ++ [mkNode (AsyncGraphNodeFrame (mkFrame i s (Some b))) ∅])
            (elements T) (length h)).
    heap_grows_steps.
Qed.

Lemma bottom_graft_grows T h tail frame :
  heap_grows h (bottom_graft T h tail frame).
Proof.
  destruct frame as [f|]; cbn [bottom_graft new_node];
    [apply bottom_loop_grows | heap_grows_steps].
Qed.
End phases_grow.

Section top_found.
Implicit Types (h : list AsyncGraphNode).

Lemma top_loop_head_some exit frame h hd tail :
  g_head_node (top_loop exit frame h (Some hd) tail) = Some hd.
Proof.
  revert h tail. induction frame as [i s|i s b IH] using Frame_back_ind;
    intros h tail; cbn [top_loop new_node];
    (destruct (frame_is _ exit); [done|]); [done|apply IH].
Qed.

Lemma top_loop_head_none exit frame h tail :
  g_head_node (top_loop exit frame h None tail) = None
  ↔ f_id frame = f_id exit.
Proof.
  destruct frame as [i s back]; cbn [top_loop new_node]. unfold frame_is.
  case_bool_decide as Hid; [done|].
  destruct back as [b|]; cbn; [rewrite top_loop_head_some|]; done.
Qed.

Lemma frame_chain_cons_inv frame f fs :
  frame_chain frame = f :: fs →
  frame = f
  ∧ match fs with
    | [] => f_back frame = None
    | _ => ∃ b, f_back frame = Some b ∧ frame_chain b = fs
    end.
Proof.
  destruct frame as [i s [b|]]; cbn; intros [= <- <-]; [|done].
  split; [done|]. destruct b as [j u [c|]]; cbn; by eexists.
Qed.

(** The loop over the caller's frames when the exit frame is met after the
    frames [prefix], from its second round on. *)
Lemma top_loop_found_next exit fe rest prefix frame h0 p0 hd :
  frame_chain frame = prefix ++ fe :: rest →
  f_id fe = f_id exit →
  (∀ f, f ∈ prefix → f_id f ≠ f_id exit) →
  top_loop exit frame (h0 ++ [mkNode (AsyncGraphNodeFrame p0) ∅])
           (Some hd) (length h0)
  = mkGrafted (h0 ++ chain_nodes (length h0) (p0 :: prefix)) (Some hd)
              (length h0 + length prefix) (Some fe).
Proof.
  intros Hchain Hfe. revert frame h0 p0 Hchain.
  induction prefix as [|p ps IH]; intros frame h0 p0 Hchain Hne.
  - apply frame_chain_cons_inv in Hchain as [-> _].
    destruct fe as [i s back]; cbn [top_loop]. unfold frame_is.
    rewrite bool_decide_eq_true_2 by done. cbn. by rewrite Nat.add_0_r.
  - cbn [app] in Hchain.
    apply frame_chain_cons_inv in Hchain as [-> Hback].
    destruct (ps ++ fe :: rest) as [|x xs] eqn:Hps;
      [by destruct ps|]. destruct Hback as (b & Hb & Hchain).
    destruct p as [i s back]; cbn in Hb; subst back.
    cbn [top_loop new_node]. unfold frame_is.
    rewrite bool_decide_eq_false_2 by (apply Hne; by left).
    rewrite link_step by done. rewrite add_edge_first.
    rewrite length_app; cbn [length]. rewrite Nat.add_1_r.
    pose proof (IH b (h0 ++ [mkNode (AsyncGraphNodeFrame p0)
                                    {[S (length h0)]}])
                  (mkFrame i s (Some b))) as IH'.
    rewrite length_app, Nat.add_1_r in IH'. cbn [length] in IH'.
    rewrite IH'; [|congruence|intros f Hf; apply Hne; by right].
    rewrite <- (assoc_L (++)). cbn [app chain_nodes length].
    f_equal. lia.
Qed.

Lemma top_loop_found exit fe rest p ps frame h tail :
  frame_chain frame = (p :: ps) ++ fe :: rest →
  f_id fe = f_id exit →
  (∀ f, f ∈ p :: ps → f_id f ≠ f_id exit) →
  top_loop exit frame h None tail
  = mkGrafted (h ++ chain_nodes (length h) (p :: ps)) (Some (length h))
              (length h + length ps) (Some fe).
Proof.
  intros Hchain Hfe Hne. cbn [app] in Hchain.
  apply frame_chain_cons_inv in Hchain as [-> Hback].
  destruct (ps ++ fe :: rest) as [|x xs] eqn:Hps;
    [by destruct ps|]. destruct Hback as (b & Hb & Hchain).
  destruct p as [i s back]; cbn in Hb; subst back.
  cbn [top_loop new_node]. unfold frame_is.
  rewrite bool_decide_eq_false_2 by (apply Hne; by left).
  apply (top_loop_found_next exit fe rest ps);
    [congruence | done | intros f Hf; apply Hne; by right].
Qed.
End top_found.

(** Lines 176-194, the exit frame met.  When the head node of the current
    task is a frame node and the frame it wraps is met on the caller's stack
    after the frames [p :: ps], these frames are wrapped one node each, in
    order, each awaited by exactly the next one; the node of the last of
    them is awaited by exactly the head node of the task; the node of the
    caller's frame becomes the head of the graph, and the walk stops at the
    exit frame, which is not wrapped again. *)
Theorem top_graft_splices_caller_frames (h : list AsyncGraphNode)
    (task_node task_head_node : nat) (frame exit fe p : Frame)
    (ps rest : list Frame) :
  kind <$> h !! task_head_node = Some (AsyncGraphNodeFrame exit) →
  frame_chain frame = (p :: ps) ++ fe :: rest →
  f_id fe = f_id exit →
  (∀ f, f ∈ p :: ps → f_id f ≠ f_id exit) →
  let g := top_graft h task_node task_head_node frame in
  let base := length h in
  g_head_node g = Some base
  ∧ g_frame g = Some fe
  ∧ g_tail_node g = base + length ps
  ∧ length (g_heap g) = base + S (length ps)
  ∧ (∀ r, r < base → g_heap g !! r = h !! r)
  ∧ (∀ i f, (p :: ps) !! i = Some f →
       g_heap g !! (base + i)
       = Some (mkNode (AsyncGraphNodeFrame f)
                 (if decide (i < length ps) then {[S (base + i)]}
                  else {[task_head_node]}))).
Proof.
  intros Hkind Hchain Hfe Hne g base. subst g. unfold top_graft.
  rewrite Hkind, (top_loop_found exit fe rest p ps frame h _ Hchain Hfe Hne).
  cbn [g_heap g_head_node g_tail_node g_frame]. fold base.
  assert (Hlen : length (chain_nodes base (p :: ps)) = S (length ps))
    by apply chain_nodes_length.
  split_and!; try done.
  - rewrite add_awaited_by_length, length_app. lia.
  - intros r Hr. unfold add_awaited_by.
    rewrite list_lookup_alter_ne by lia. by apply lookup_app_l.
  - intros i f Hi. pose proof (lookup_lt_Some _ _ _ Hi) as Hlt.
    cbn [length] in Hlt.
    pose proof (chain_nodes_lookup base (p :: ps) i f Hi) as Hnode.
    cbn [length] in Hnode.
    unfold add_awaited_by. destruct (decide (i = length ps)) as [->|Hi'].
    + rewrite list_lookup_alter_eq, lookup_app_r by (unfold base; lia).
      replace (base + length ps - length h) with (length ps)
        by (unfold base; lia).
      rewrite Hnode. rewrite !decide_False by lia. cbn.
      unfold add_edge; cbn. by rewrite (left_id_L ∅ (∪)).
    + rewrite list_lookup_alter_ne, lookup_app_r by (unfold base; lia).
      replace (base + i - length h) with i by (unfold base; lia).
      rewrite Hnode. by rewrite !decide_True by lia.
Qed.

Lemma top_graft_splices_caller_frames_witness :
  frame_chain ex_caller = [ex_caller; ex_coro] ++ ex_run :: [ex_main]
  ∧ g_head_node (top_graft (d_heap (ex_drained ex_nested 1 10)) 0 1
                           ex_caller) = Some 2
  ∧ g_frame (top_graft (d_heap (ex_drained ex_nested 1 10)) 0 1 ex_caller)
    = Some ex_run.
Proof.
  assert (Hchain : frame_chain ex_caller
                   = [ex_caller; ex_coro] ++ ex_run :: [ex_main])
    by reflexivity.
  assert (Hne : ∀ f, f ∈ [ex_caller; ex_coro] → f_id f ≠ f_id ex_run).
  { intros f Hf.
    repeat (apply elem_of_cons in Hf as [->|Hf]; [vm_compute; lia|]).
    by apply elem_of_nil in Hf. }
  split; [exact Hchain|].
  destruct (top_graft_splices_caller_frames
              (d_heap (ex_drained ex_nested 1 10)) 0 1 ex_caller ex_run
              ex_run ex_caller [ex_coro] [ex_main]
              eq_refl Hchain eq_refl Hne) as (Hhead & Hframe & _).
  split; [exact Hhead | exact Hframe].
Defined.

Section whole_call.
Variables (rt : Runtime) (fuel : nat) (frame : Frame) (cur : nat).
Variables (st0 st : DrainState) (task_node task_head_node : nat).
Hypothesis Hmode : current_task rt = Some cur.
Hypothesis Hinit : drain_init rt cur = (st0, task_node, task_head_node).
Hypothesis Hrun : drain rt fuel st0 = Some st.

(** What a returning call has computed. *)
Lemma returned_inv h hd :
  get_async_graph rt fuel frame = Returned (h, hd) →
  let g := top_graft (d_heap st) task_node task_head_node frame in
  (∃ t, t ∈ terminal_async_nodes st)
  ∧ h = bottom_graft (terminal_async_nodes st) (g_heap g) (g_tail_node g)
                     (g_frame g ≫= entry_search (cr_frame rt cur))
  ∧ hd = g_head_node g.
Proof.
  unfold get_async_graph, cooperative. rewrite Hmode, Hinit, Hrun.
  case_decide as Hsize; [|done]. intros [= <- <-]. split; [|done].
  apply (size_pos_elem_of (C:=gset nat)). lia.
Qed.

Lemma returned_grows h hd :
  get_async_graph rt fuel frame = Returned (h, hd) →
  heap_grows (d_heap st) h.
Proof.
  intros (_ & -> & _)%returned_inv.
  eapply heap_grows_trans; [apply top_graft_grows|].
  apply bottom_graft_grows.
Qed.

Lemma node_get_awaiters_grows (h h' : list AsyncGraphNode) r :
  heap_grows h h' → r < length h →
  node_get_awaiters rt h' r = node_get_awaiters rt h r.
Proof.
  intros [_ Hn] Hr. unfold node_get_awaiters.
  destruct (lookup_lt_is_Some_2 h r Hr) as [n Hn0].
  destruct (Hn r n Hn0) as (n' & -> & Hk & _). by rewrite Hn0, Hk.
Qed.
End whole_call.

(** Line 221 returns [None] in one case only.  A call that returns in
    cooperative mode returns no head node exactly when the head node of the
    current task is a frame node for the very frame that called
    [get_async_graph]; in every other case it returns a node. *)
Theorem returns_no_head_iff (rt : Runtime) (fuel : nat) (frame : Frame)
    (cur : nat) (st0 st : DrainState) (task_node task_head_node : nat)
    (h : list AsyncGraphNode) (hd : option nat) :
  current_task rt = Some cur →
  drain_init rt cur = (st0, task_node, task_head_node) →
  drain rt fuel st0 = Some st →
  get_async_graph rt fuel frame = Returned (h, hd) →
  hd = None
  ↔ ∃ exit, kind <$> d_heap st !! task_head_node
            = Some (AsyncGraphNodeFrame exit)
            ∧ f_id frame = f_id exit.
Proof.
  intros Hmode Hinit Hrun Hret.
  destruct (returned_inv rt fuel frame cur st0 st _ _ Hmode Hinit Hrun
              h hd Hret) as (_ & _ & ->).
  unfold top_graft.
  destruct (kind <$> d_heap st !! task_head_node) as [[a|e|t aws]|];
    cbn [g_head_node];
    try (split; [done | by intros (exit & ? & _)]).
  rewrite top_loop_head_none. split.
  - intros Hid. by exists e.
  - by intros (exit & [= <-] & ?).
Qed.

Lemma returns_no_head_iff_witness :
  drain ex_direct 1 (drain_init ex_direct 10).1.1
  = Some (ex_drained ex_direct 1 10)
  ∧ get_async_graph ex_direct 1 ex_caller
    = Returned (ex_graph ex_direct 1 ex_caller, None)
  ∧ ∃ exit, kind <$> d_heap (ex_drained ex_direct 1 10) !! 1
            = Some (AsyncGraphNodeFrame exit)
            ∧ f_id ex_caller = f_id exit.
Proof.
  assert (Hrun : drain ex_direct 1 (drain_init ex_direct 10).1.1
                 = Some (ex_drained ex_direct 1 10))
    by (vm_compute; reflexivity).
  assert (Hret : get_async_graph ex_direct 1 ex_caller
                 = Returned (ex_graph ex_direct 1 ex_caller, None))
    by (vm_compute; reflexivity).
  split; [exact Hrun|]. split; [exact Hret|].
  apply (returns_no_head_iff ex_direct 1 ex_caller 10
           (drain_init ex_direct 10).1.1 (ex_drained ex_direct 1 10) 0 1
           (ex_graph ex_direct 1 ex_caller) None
           eq_refl eq_refl Hrun Hret).
  reflexivity.
Defined.

(** Lines 176-194 when the caller's frame is the exit frame itself: the
    loop wraps no frame, line 194 adds the head node of the task to its own
    [awaited_by], and the call returns no head node. *)
Theorem caller_in_exit_frame_self_edge (rt : Runtime) (fuel : nat)
    (frame : Frame) (cur : nat) (st0 st : DrainState)
    (task_node task_head_node : nat) (exit : Frame)
    (h : list AsyncGraphNode) (hd : option nat) :
  current_task rt = Some cur →
  drain_init rt cur = (st0, task_node, task_head_node) →
  drain rt fuel st0 = Some st →
  kind <$> d_heap st !! task_head_node = Some (AsyncGraphNodeFrame exit) →
  f_id frame = f_id exit →
  get_async_graph rt fuel frame = Returned (h, hd) →
  hd = None
  ∧ top_graft (d_heap st) task_node task_head_node frame
    = mkGrafted (add_awaited_by (d_heap st) task_head_node task_head_node)
                None task_head_node (Some frame)
  ∧ task_head_node ∈ awaited_by_of h task_head_node.
Proof.
  intros Hmode Hinit Hrun Hkind Hid Hret.
  destruct (returned_inv rt fuel frame cur st0 st _ _ Hmode Hinit Hrun
              h hd Hret) as (_ & -> & ->).
  destruct (drained_wf rt fuel cur st0 st _ _ Hinit Hrun) as (_ & _ & Hthn).
  assert (Hgraft : top_graft (d_heap st) task_node task_head_node frame
            = mkGrafted
                (add_awaited_by (d_heap st) task_head_node task_head_node)
                None task_head_node (Some frame)).
  { unfold top_graft. rewrite Hkind. destruct frame as [i s back].
    cbn [top_loop]. unfold frame_is.
    by rewrite bool_decide_eq_true_2 by done. }
  rewrite Hgraft. cbn [g_heap g_head_node g_tail_node g_frame].
  split_and!; try done.
  eapply heap_grows_awaited_by; [apply bottom_graft_grows|].
  rewrite awaited_by_of_add, decide_True by done. set_solver.
Qed.

Lemma caller_in_exit_frame_self_edge_witness :
  drain ex_direct 1 (drain_init ex_direct 10).1.1
  = Some (ex_drained ex_direct 1 10)
  ∧ kind <$> d_heap (ex_drained ex_direct 1 10) !! 1
    = Some (AsyncGraphNodeFrame ex_caller)
  ∧ get_async_graph ex_direct 1 ex_caller
    = Returned (ex_graph ex_direct 1 ex_caller, None)
  ∧ 1 ∈ awaited_by_of (ex_graph ex_direct 1 ex_caller) 1.
Proof.
  assert (Hrun : drain ex_direct 1 (drain_init ex_direct 10).1.1
                 = Some (ex_drained ex_direct 1 10))
    by (vm_compute; reflexivity).
  assert (Hkind : kind <$> d_heap (ex_drained ex_direct 1 10) !! 1
                  = Some (AsyncGraphNodeFrame ex_caller))
    by (vm_compute; reflexivity).
  assert (Hret : get_async_graph ex_direct 1 ex_caller
                 = Returned (ex_graph ex_direct 1 ex_caller, None))
    by (vm_compute; reflexivity).
  split; [exact Hrun|]. split; [exact Hkind|]. split; [exact Hret|].
  destruct (caller_in_exit_frame_self_edge ex_direct 1 ex_caller 10
              (drain_init ex_direct 10).1.1 (ex_drained ex_direct 1 10) 0 1
              ex_caller (ex_graph ex_direct 1 ex_caller) None
              eq_refl eq_refl Hrun Hkind eq_refl Hret) as (_ & _ & Hself).
  exact Hself.
Defined.

(** What the call never does: every node of the worklist's store, and so
    every node that [makeAsyncGraphNodes] built for the current task, is a
    node of the returned graph, of the same class, awaited by at least the
    nodes that awaited it; the two grafts only add nodes and edges. *)
Theorem returned_graph_keeps_nodes_and_edges (rt : Runtime) (fuel : nat)
    (frame : Frame) (cur : nat) (st0 st : DrainState)
    (task_node task_head_node : nat) (h : list AsyncGraphNode)
    (hd : option nat) :
  current_task rt = Some cur →
  drain_init rt cur = (st0, task_node, task_head_node) →
  drain rt fuel st0 = Some st →
  get_async_graph rt fuel frame = Returned (h, hd) →
  heap_grows (relocate 0 <$> sg_nodes (makeAsyncGraphNodes rt cur))
             (d_heap st)
  ∧ heap_grows (d_heap st) h
  ∧ ∀ r k, kind <$> d_heap st !! r = Some k →
           kind <$> h !! r = Some k
           ∧ awaited_by_of (d_heap st) r ⊆ awaited_by_of h r.
Proof.
  intros Hmode Hinit Hrun Hret.
  pose proof (returned_grows rt fuel frame cur st0 st _ _ Hmode Hinit Hrun
                h hd Hret) as Hgrows.
  split_and!; [|done|].
  - pose proof (drain_grows rt fuel st0 st Hrun) as Hdrain.
    revert Hinit Hdrain. unfold drain_init, call_makeAsyncGraphNodes.
    by intros [= <- _ _].
  - intros r k Hk. split; [by eapply heap_grows_kind|].
    by apply heap_grows_awaited_by.
Qed.

Lemma returned_graph_keeps_nodes_and_edges_witness :
  drain ex_diamond 4 (drain_init ex_diamond 10).1.1
  = Some (ex_drained ex_diamond 4 10)
  ∧ get_async_graph ex_diamond 4 ex_caller
    = Returned (ex_graph ex_diamond 4 ex_caller, Some 0)
  ∧ heap_grows (d_heap (ex_drained ex_diamond 4 10))
               (ex_graph ex_diamond 4 ex_caller).
Proof.
  assert (Hrun : drain ex_diamond 4 (drain_init ex_diamond 10).1.1
                 = Some (ex_drained ex_diamond 4 10))
    by (vm_compute; reflexivity).
  assert (Hret : get_async_graph ex_diamond 4 ex_caller
                 = Returned (ex_graph ex_diamond 4 ex_caller, Some 0))
    by (vm_compute; reflexivity).
  split; [exact Hrun|]. split; [exact Hret|].
  destruct (returned_graph_keeps_nodes_and_edges ex_diamond 4 ex_caller 10
              (drain_init ex_diamond 10).1.1 (ex_drained ex_diamond 4 10)
              0 0 (ex_graph ex_diamond 4 ex_caller) (Some 0)
              eq_refl eq_refl Hrun Hret) as (_ & Hgrows & _).
  exact Hgrows.
Defined.

Section terminal.
Variable rt : Runtime.

Lemma visit_awaiter_terminal node st b :
  terminal_async_nodes (visit_awaiter rt node st b)
  = terminal_async_nodes st.
Proof.
  unfold visit_awaiter. by destruct (awaitable_to_head_node st !! b).
Qed.

Lemma visit_awaiters_terminal node bs st :
  terminal_async_nodes (foldl (visit_awaiter rt node) st bs)
  = terminal_async_nodes st.
Proof.
  revert st. induction bs as [|b bs IH]; intros st; [done|].
  cbn. by rewrite IH, visit_awaiter_terminal.
Qed.

Lemma drain_terminal_no_awaiters fuel st st' :
  drain rt fuel st = Some st' → drain_wf st →
  (∀ t, t ∈ terminal_async_nodes st →
        node_get_awaiters rt (d_heap st) t = []) →
  ∀ t, t ∈ terminal_async_nodes st' →
       node_get_awaiters rt (d_heap st') t = [].
Proof.
  revert st. induction fuel as [|fuel IH]; intros st; cbn;
    destruct (node_q st) as [|node rest] eqn:Hq; try done;
    try (by intros [= <-]).
  intros Hrun Hwf Hterm.
  destruct (drain_step_wf rt node rest st Hq Hwf) as [Hwf1 Hext1].
  apply (IH _ Hrun Hwf1). intros t.
  unfold drain_step in *. rewrite visit_awaiters_terminal. cbn.
  intros Ht.
  assert (Hold : t < length (d_heap st)
                 ∧ node_get_awaiters rt (d_heap st) t = []).
  { destruct Hwf as [Hvq Hvt]. case_decide as Hlen.
    - apply elem_of_union in Ht as [Ht| ->%elem_of_singleton].
      + split; [by apply Hvt | by apply Hterm].
      + split; [apply Hvq; rewrite Hq; by left|].
        by apply length_zero_iff_nil.
    - split; [by apply Hvt | by apply Hterm]. }
  destruct Hold as [Hlt Hnone].
  by rewrite (node_get_awaiters_ext rt (d_heap st)).
Qed.
End terminal.

(** Lines 157-159 through the whole call: every node recorded in
    [terminal_async_nodes] is a node of the returned graph whose
    [get_awaiters()] is empty, in the worklist's store and in the returned
    graph alike. *)
Theorem terminal_nodes_have_no_awaiters (rt : Runtime) (fuel : nat)
    (frame : Frame) (cur : nat) (st0 st : DrainState)
    (task_node task_head_node : nat) (h : list AsyncGraphNode)
    (hd : option nat) (t : nat) :
  current_task rt = Some cur →
  drain_init rt cur = (st0, task_node, task_head_node) →
  drain rt fuel st0 = Some st →
  get_async_graph rt fuel frame = Returned (h, hd) →
  t ∈ terminal_async_nodes st →
  t < length (d_heap st)
  ∧ node_get_awaiters rt (d_heap st) t = []
  ∧ node_get_awaiters rt h t = [].
Proof.
  intros Hmode Hinit Hrun Hret Ht.
  destruct (drain_init_wf rt cur st0 _ _ Hinit) as (Hwf0 & _ & _ & _ & _).
  destruct (drain_wf_preserved rt _ _ _ Hrun Hwf0) as ([_ Hvt] & _ & _).
  assert (Hnone : node_get_awaiters rt (d_heap st) t = []).
  { apply (drain_terminal_no_awaiters rt fuel st0 st Hrun Hwf0); [|done].
    intros t0. revert Hinit. unfold drain_init, call_makeAsyncGraphNodes.
    intros [= <- _ _]. cbn. by intros ?%not_elem_of_empty. }
  split_and!; [by apply Hvt | done |].
  rewrite (node_get_awaiters_grows rt (d_heap st)); [done| |by apply Hvt].
  by eapply returned_grows.
Qed.

Lemma terminal_nodes_have_no_awaiters_witness :
  drain ex_diamond 4 (drain_init ex_diamond 10).1.1
  = Some (ex_drained ex_diamond 4 10)
  ∧ get_async_graph ex_diamond 4 ex_caller
    = Returned (ex_graph ex_diamond 4 ex_caller, Some 0)
  ∧ 3 ∈ terminal_async_nodes (ex_drained ex_diamond 4 10)
  ∧ node_get_awaiters ex_diamond (ex_graph ex_diamond 4 ex_caller) 3 = [].
Proof.
  assert (Hrun : drain ex_diamond 4 (drain_init ex_diamond 10).1.1
                 = Some (ex_drained ex_diamond 4 10))
    by (vm_compute; reflexivity).
  assert (Hret : get_async_graph ex_diamond 4 ex_caller
                 = Returned (ex_graph ex_diamond 4 ex_caller, Some 0))
    by (vm_compute; reflexivity).
  assert (Hterm : 3 ∈ terminal_async_nodes (ex_drained ex_diamond 4 10))
    by by_evaluation.
  split; [exact Hrun|]. split; [exact Hret|]. split; [exact Hterm|].
  destruct (terminal_nodes_have_no_awaiters ex_diamond 4 ex_caller 10
              (drain_init ex_diamond 10).1.1 (ex_drained ex_diamond 4 10)
              0 0 (ex_graph ex_diamond 4 ex_caller) (Some 0) 3
              eq_refl eq_refl Hrun Hret Hterm) as (_ & _ & Hnone).
  exact Hnone.
Defined.

Section fan_in_exact.
Implicit Types (h : list AsyncGraphNode).

Lemma fan_in_lookup_other h ts new r :
  r ∉ ts → fan_in h ts new !! r = h !! r.
Proof.
  revert h. induction ts as [|t ts IH]; intros h Hr; [done|].
  apply not_elem_of_cons in Hr as [Hne Hr]. cbn.
  fold (fan_in (add_awaited_by h t new) ts new). rewrite IH by done.
  unfold add_awaited_by. by rewrite list_lookup_alter_ne.
Qed.

Lemma fan_in_awaited_by_exact h ts new r :
  r ∈ ts → r < length h →
  awaited_by_of (fan_in h ts new) r = awaited_by_of h r ∪ {[new]}.
Proof.
  revert h. induction ts as [|t ts IH]; intros h Hr Hlt.
  { by apply elem_of_nil in Hr. }
  cbn. fold (fan_in (add_awaited_by h t new) ts new).
  destruct (decide (r ∈ ts)) as [Hin|Hnin].
  - rewrite IH by (done || by rewrite add_awaited_by_length).
    rewrite awaited_by_of_add. case_decide; set_solver.
  - apply elem_of_cons in Hr as [->|?]; [|done].
    unfold awaited_by_of at 1. rewrite fan_in_lookup_other by done.
    fold (awaited_by_of (add_awaited_by h t new) t).
    by rewrite awaited_by_of_add, decide_True.
Qed.
End fan_in_exact.

(** Lines 210-219, what the fan-in changes.  When a frame lies beyond the
    entry frame, the nodes present before the bottom of the graph is
    attached are left as they were, except the terminal nodes: each of these
    gains exactly one awaiter, the node of the first frame beyond the entry
    frame. *)
Theorem fan_in_changes_only_terminal_nodes (rt : Runtime) (fuel : nat)
    (frame : Frame) (cur : nat) (st0 st : DrainState)
    (task_node task_head_node : nat) (f1 : Frame)
    (h : list AsyncGraphNode) (hd : option nat) :
  current_task rt = Some cur →
  drain_init rt cur = (st0, task_node, task_head_node) →
  drain rt fuel st0 = Some st →
  let g := top_graft (d_heap st) task_node task_head_node frame in
  g_frame g ≫= entry_search (cr_frame rt cur) = Some f1 →
  get_async_graph rt fuel frame = Returned (h, hd) →
  let base := length (g_heap g) in
  (∀ r, r < base → r ∉ terminal_async_nodes st → h !! r = g_heap g !! r)
  ∧ (∀ t, t ∈ terminal_async_nodes st →
       kind <$> h !! t = kind <$> g_heap g !! t
       ∧ awaited_by_of h t = awaited_by_of (g_heap g) t ∪ {[base]}).
Proof.
  intros Hmode Hinit Hrun g Hfound Hret base.
  destruct (returned_inv rt fuel frame cur st0 st _ _ Hmode Hinit Hrun
              h hd Hret) as (_ & Hh & _).
  fold g in Hh. rewrite Hfound in Hh. cbn [bottom_graft] in Hh.
  destruct (drained_wf rt fuel cur st0 st _ _ Hinit Hrun)
    as ([_ Hterm] & Htn & Hthn).
  destruct (top_graft_ext (d_heap st) _ _ frame Htn Hthn) as [[Hlen _] _].
  fold g in Hlen.
  assert (HT : ∀ t, t ∈ terminal_async_nodes st → t < length (g_heap g))
    by (intros t Ht; specialize (Hterm t Ht); lia).
  rewrite bottom_loop_shape in Hh by done. fold base in Hh. subst h.
  split.
  - intros r Hr Hnt.
    rewrite lookup_app_l by (by rewrite fan_in_length).
    apply fan_in_lookup_other. by rewrite elem_of_elements.
  - intros t Ht. specialize (HT t Ht). split.
    + rewrite lookup_app_l by (by rewrite fan_in_length).
      pose proof (heap_grows_fan_in (g_heap g)
                    (elements (terminal_async_nodes st)) base) as Hgrows.
      destruct (lookup_lt_is_Some_2 _ _ HT) as [n Hn].
      destruct Hgrows as [_ Hnodes].
      destruct (Hnodes t n Hn) as (n' & -> & Hk & _).
      rewrite Hn. cbn. by rewrite Hk.
    + unfold awaited_by_of at 1.
      rewrite lookup_app_l by (by rewrite fan_in_length).
      fold (awaited_by_of (fan_in (g_heap g)
              (elements (terminal_async_nodes st)) base) t).
      apply fan_in_awaited_by_exact; [by apply elem_of_elements | done].
Qed.

Lemma fan_in_changes_only_terminal_nodes_witness :
  drain ex_diamond 4 (drain_init ex_diamond 10).1.1
  = Some (ex_drained ex_diamond 4 10)
  ∧ get_async_graph ex_diamond 4 ex_caller
    = Returned (ex_graph ex_diamond 4 ex_caller, Some 0)
  ∧ 3 ∈ terminal_async_nodes (ex_drained ex_diamond 4 10)
  ∧ awaited_by_of (ex_graph ex_diamond 4 ex_caller) 3
    = awaited_by_of (d_heap (ex_drained ex_diamond 4 10)) 3 ∪ {[5]}.
Proof.
  assert (Hrun : drain ex_diamond 4 (drain_init ex_diamond 10).1.1
                 = Some (ex_drained ex_diamond 4 10))
    by (vm_compute; reflexivity).
  assert (Hret : get_async_graph ex_diamond 4 ex_caller
                 = Returned (ex_graph ex_diamond 4 ex_caller, Some 0))
    by (vm_compute; reflexivity).
  assert (Hterm : 3 ∈ terminal_async_nodes (ex_drained ex_diamond 4 10))
    by by_evaluation.
  split; [exact Hrun|]. split; [exact Hret|]. split; [exact Hterm|].
  destruct (fan_in_changes_only_terminal_nodes ex_diamond 4 ex_caller 10
              (drain_init ex_diamond 10).1.1 (ex_drained ex_diamond 4 10)
              0 0 ex_run (ex_graph ex_diamond 4 ex_caller) (Some 0)
              eq_refl eq_refl Hrun eq_refl Hret) as [_ Hfan].
  exact (proj2 (Hfan 3 Hterm)).
Defined.

Section entry_search_none.

(** The search leaves [frame] at [None] exactly when the entry frame is none
    of the frames that have a caller on the chain. *)
Lemma entry_search_None_iff entry f0 :
  entry_search entry f0 = None
  ↔ ∀ i f, frame_chain f0 !! i = Some f →
           S i < length (frame_chain f0) →
           f_id <$> entry ≠ Some (f_id f).
Proof.
  induction f0 as [j s|j s b IH] using Frame_back_ind;
    cbn [entry_search].
  - split; [|by case_bool_decide].
    intros _ i f Hi Hlt. cbn in Hlt. lia.
  - case_bool_decide as Hid.
    + split; [done|]. intros Hall.
      destruct (Hall 0 (mkFrame j s (Some b))); [done| |done].
      cbn. destruct b as [? ? [?|]]; cbn; lia.
    + rewrite IH. split.
      * intros Hall [|i] f Hi Hlt.
        -- cbn in Hi. by injection Hi as <-.
        -- cbn in Hi, Hlt. apply (Hall i f Hi). lia.
      * intros Hall i f Hi Hlt. apply (Hall (S i) f); [done|]. cbn. lia.
Qed.

Lemma last_add_awaited_by_kind (h : list AsyncGraphNode) node child :
  kind <$> last (add_awaited_by h node child) = kind <$> last h.
Proof.
  rewrite !last_lookup, add_awaited_by_length. apply add_awaited_by_kind.
Qed.

Lemma last_chain_nodes_kind base fs f :
  last fs = Some f →
  kind <$> last (chain_nodes base fs) = Some (AsyncGraphNodeFrame f).
Proof.
  rewrite !last_lookup, chain_nodes_length. intros Hf.
  by rewrite (chain_nodes_lookup base fs _ f Hf).
Qed.
End entry_search_none.

(** Lines 198-219, which branch is taken.  The graph a call returns in
    cooperative mode ends with the error node "Could not link current task
    to entry point." exactly when the walk of the top of the graph used up
    the stack, or the entry frame of the task is none of the remaining
    frames that have a caller: an entry frame that is the outermost frame of
    the stack gives the error node as well.  Otherwise the graph ends with a
    frame node. *)
Theorem entry_error_node_iff (rt : Runtime) (fuel : nat) (frame : Frame)
    (cur : nat) (st0 st : DrainState) (task_node task_head_node : nat)
    (h : list AsyncGraphNode) (hd : option nat) :
  current_task rt = Some cur →
  drain_init rt cur = (st0, task_node, task_head_node) →
  drain rt fuel st0 = Some st →
  get_async_graph rt fuel frame = Returned (h, hd) →
  let g := top_graft (d_heap st) task_node task_head_node frame in
  (kind <$> last h = Some (AsyncGraphNodeError entry_error_text [])
   ↔ ∀ f0, g_frame g = Some f0 →
       ∀ i f, frame_chain f0 !! i = Some f →
              S i < length (frame_chain f0) →
              f_id <$> cr_frame rt cur ≠ Some (f_id f))
  ∧ (kind <$> last h = Some (AsyncGraphNodeError entry_error_text [])
     ∨ ∃ f, kind <$> last h = Some (AsyncGraphNodeFrame f)).
Proof.
  intros Hmode Hinit Hrun Hret g.
  destruct (returned_inv rt fuel frame cur st0 st _ _ Hmode Hinit Hrun
              h hd Hret) as (_ & Hh & _).
  fold g in Hh.
  destruct (drained_wf rt fuel cur st0 st _ _ Hinit Hrun)
    as ([_ Hterm] & Htn & Hthn).
  destruct (top_graft_ext (d_heap st) _ _ frame Htn Hthn) as [[Hlen _] _].
  fold g in Hlen.
  assert (HT : ∀ t, t ∈ terminal_async_nodes st → t < length (g_heap g))
    by (intros t Ht; specialize (Hterm t Ht); lia).
  destruct (g_frame g ≫= entry_search (cr_frame rt cur)) as [f1|] eqn:Hsearch.
  - cbn [bottom_graft] in Hh. rewrite bottom_loop_shape in Hh by done.
    destruct (last (frame_chain f1)) as [fl|] eqn:Hlast;
      [|apply last_None in Hlast; by destruct f1 as [? ? [?|]]].
    assert (Hkind : kind <$> last h = Some (AsyncGraphNodeFrame fl)).
    { rewrite Hh, last_app.
      pose proof (last_chain_nodes_kind (length (g_heap g)) _ _ Hlast) as Hk.
      destruct (last (chain_nodes _ _)); [done|discriminate]. }
    split; [|right; by exists fl]. rewrite Hkind. split; [done|].
    intros Hall. destruct (g_frame g) as [f0|]; [|done]. cbn in Hsearch.
    assert (entry_search (cr_frame rt cur) f0 = None)
      by (apply entry_search_None_iff; by apply Hall).
    congruence.
  - cbn [bottom_graft new_node] in Hh.
    assert (Hkind : kind <$> last h
                    = Some (AsyncGraphNodeError entry_error_text [])).
    { by rewrite Hh, last_add_awaited_by_kind, last_snoc. }
    split; [|by left]. split; [|done]. intros _ f0 Hf0.
    rewrite Hf0 in Hsearch. by apply entry_search_None_iff.
Qed.

Lemma entry_error_node_iff_witness :
  drain ex_nested 1 (drain_init ex_nested 10).1.1
  = Some (ex_drained ex_nested 1 10)
  ∧ get_async_graph ex_nested 1 ex_caller
    = Returned (ex_graph ex_nested 1 ex_caller, Some 2)
  ∧ g_frame (top_graft (d_heap (ex_drained ex_nested 1 10)) 0 1 ex_caller)
    = Some ex_run
  ∧ last (frame_chain ex_run) = cr_frame ex_nested 10
  ∧ kind <$> last (ex_graph ex_nested 1 ex_caller)
    = Some (AsyncGraphNodeError entry_error_text []).
Proof.
  assert (Hrun : drain ex_nested 1 (drain_init ex_nested 10).1.1
                 = Some (ex_drained ex_nested 1 10))
    by (vm_compute; reflexivity).
  assert (Hret : get_async_graph ex_nested 1 ex_caller
                 = Returned (ex_graph ex_nested 1 ex_caller, Some 2))
    by (vm_compute; reflexivity).
  split; [exact Hrun|]. split; [exact Hret|].
  split; [vm_compute; reflexivity|]. split; [reflexivity|].
  destruct (entry_error_node_iff ex_nested 1 ex_caller 10
              (drain_init ex_nested 10).1.1 (ex_drained ex_nested 1 10)
              0 1 (ex_graph ex_nested 1 ex_caller) (Some 2)
              eq_refl eq_refl Hrun Hret) as [[_ Herr] _].
  apply Herr. intros f0 Hf0 i f Hi Hlt.
  assert (Hsame : Some ex_run = Some f0)
    by (rewrite <- Hf0; vm_compute; reflexivity).
  injection Hsame as <-.
  destruct i as [|[|i]]; cbn in *; [|lia..].
  injection Hi as <-. vm_compute. discriminate.
Defined.

(** * What the worklist expands *)

Section owner.
Variables (rt : Runtime) (cur : nat).

Lemma owner_q_valid busy st tails r :
  owner_inv rt cur busy st tails → r ∈ node_q st → r < length (d_heap st).
Proof.
  intros Hinv Hr. destruct (own_q _ _ _ _ _ Hinv r Hr) as [a Ha].
  by destruct (own_tail _ _ _ _ _ Hinv a r Ha).
Qed.

Lemma owner_tail_awaiters busy st tails a r :
  owner_inv rt cur busy st tails → tails !! a = Some r →
  node_get_awaiters rt (d_heap st) r = tail_awaiters rt a.
Proof.
  intros Hinv Ha. destruct (own_tail _ _ _ _ _ Hinv a r Ha) as [_ Hk].
  unfold node_get_awaiters, tail_awaiters.
  destruct (d_heap st !! r) as [n|]; cbn in Hk; [|done]. congruence.
Qed.

Lemma visit_awaiter_owner busy node st tails b :
  owner_inv rt cur busy st tails →
  rtc (awaits rt) cur b →
  ∃ tails',
    owner_inv rt cur busy (visit_awaiter rt node st b) tails'
    ∧ b ∈ dom (awaitable_to_head_node (visit_awaiter rt node st b))
    ∧ dom (awaitable_to_head_node st)
      ⊆ dom (awaitable_to_head_node (visit_awaiter rt node st b))
    ∧ tails ⊆ tails'
    ∧ (∀ r, r ∈ node_q st → r ∈ node_q (visit_awaiter rt node st b))
    ∧ (∀ a r, tails' !! a = Some r →
         tails !! a = Some r ∨ r ∈ node_q (visit_awaiter rt node st b)).
Proof.
  intros Hinv Hb.
  pose proof (λ r, owner_q_valid busy st tails r Hinv) as Hvalid.
  destruct Hinv as [Hdom Hsize Htail Hq Hdone Hreach Hnd].
  unfold visit_awaiter.
  destruct (awaitable_to_head_node st !! b) as [known|] eqn:Hknown; cbn.
  - exists tails. split_and!; try done.
    + split; cbn; try done.
      * by rewrite add_awaited_by_length.
      * intros a r Ha. destruct (Htail a r Ha) as [Hlt Hk].
        by rewrite add_awaited_by_length, add_awaited_by_kind.
    + apply elem_of_dom. by eexists.
    + intros a r Ha. by left.
  - assert (Hfresh : tails !! b = None).
    { apply not_elem_of_dom. rewrite Hdom. by apply not_elem_of_dom. }
    exists (<[b := length (d_heap st)]> tails). split_and!.
    + split; cbn.
      * by rewrite !dom_insert_L, Hdom.
      * rewrite add_awaited_by_length, length_app. cbn [length].
        rewrite length_fmap, dom_insert_L.
        rewrite (elements_union_singleton (C:=gset nat))
          by (by apply not_elem_of_dom).
        rewrite Hsize.
        set (L := elements (dom (awaitable_to_head_node st))).
        change (sum_list_with (expansion_size rt) (b :: L))
          with (expansion_size rt b + sum_list_with (expansion_size rt) L).
        unfold expansion_size at 2. cbn [sg_nodes length]. lia.
      * intros a r. rewrite lookup_insert. case_decide as Hab.
        -- intros [= <-]. subst a.
           rewrite add_awaited_by_length, add_awaited_by_kind, length_app.
           cbn. split; [lia|].
           by rewrite lookup_app_r, Nat.sub_diag by lia.
        -- intros Ha. destruct (Htail a r Ha) as [Hlt Hk].
           rewrite add_awaited_by_length, add_awaited_by_kind, length_app.
           split; [lia|]. by rewrite lookup_app_l.
      * intros r [->|Hr]%elem_of_cons.
        -- exists b. by rewrite lookup_insert_eq.
        -- destruct (Hq r Hr) as [a Ha]. exists a.
           rewrite lookup_insert_ne; [done|]. intros <-. congruence.
      * intros a r c. rewrite lookup_insert. case_decide as Hab.
        -- intros [= <-] Hnq. destruct Hnq. by left.
        -- intros Ha Hnq Hbusy Hc. rewrite dom_insert_L.
           apply elem_of_union_r. apply (Hdone a r c); try done.
           intros Hin. apply Hnq. by right.
      * intros a. rewrite dom_insert_L.
        intros [->%elem_of_singleton|Ha]%elem_of_union; [done|].
        by apply Hreach.
      * apply NoDup_cons. split; [|done].
        intros Hin. specialize (Hvalid _ Hin). lia.
    + rewrite dom_insert_L. set_solver.
    + rewrite dom_insert_L. set_solver.
    + by apply insert_subseteq.
    + intros r Hr. by right.
    + intros a r. rewrite lookup_insert. case_decide.
      * intros [= <-]. right. by left.
      * intros Ha. by left.
Qed.

Lemma visit_awaiters_owner busy node bs st tails :
  owner_inv rt cur busy st tails →
  Forall (λ b, rtc (awaits rt) cur b) bs →
  ∃ tails',
    owner_inv rt cur busy (foldl (visit_awaiter rt node) st bs) tails'
    ∧ Forall (λ b, b ∈ dom (awaitable_to_head_node
                              (foldl (visit_awaiter rt node) st bs))) bs
    ∧ dom (awaitable_to_head_node st)
      ⊆ dom (awaitable_to_head_node (foldl (visit_awaiter rt node) st bs))
    ∧ tails ⊆ tails'
    ∧ (∀ r, r ∈ node_q st →
         r ∈ node_q (foldl (visit_awaiter rt node) st bs))
    ∧ (∀ a r, tails' !! a = Some r →
         tails !! a = Some r
         ∨ r ∈ node_q (foldl (visit_awaiter rt node) st bs)).
Proof.
  revert st tails. induction bs as [|b bs IH]; intros st tails Hinv Hbs.
  { exists tails. split_and!; try done. intros a r Ha. by left. }
  apply Forall_cons in Hbs as [Hb Hbs]. cbn [foldl].
  destruct (visit_awaiter_owner busy node st tails b Hinv Hb)
    as (tails1 & Hinv1 & Hb1 & Hdom1 & Hsub1 & Hq1 & Hnew1).
  destruct (IH _ tails1 Hinv1 Hbs)
    as (tails2 & Hinv2 & Hbs2 & Hdom2 & Hsub2 & Hq2 & Hnew2).
  exists tails2. split_and!; try done.
  - apply Forall_cons. split; [by apply Hdom2 | done].
  - by etrans.
  - by etrans.
  - intros r Hr. by apply Hq2, Hq1.
  - intros a r Ha. destruct (Hnew2 a r Ha) as [Ha1|?]; [|by right].
    destruct (Hnew1 a r Ha1) as [?|?]; [by left|right; by apply Hq2].
Qed.

(** One round of [while node_q]. *)
Lemma drain_step_owner node rest st tails :
  node_q st = node :: rest →
  owner_inv rt cur ∅ st tails →
  ∃ tails',
    owner_inv rt cur ∅ (drain_step rt node rest st) tails'
    ∧ tails ⊆ tails'
    ∧ (∀ r, r ∈ rest → r ∈ node_q (drain_step rt node rest st))
    ∧ (∀ a r, tails' !! a = Some r →
         tails !! a = Some r ∨ r ∈ node_q (drain_step rt node rest st))
    ∧ (∀ a b, tails !! a = Some node → b ∈ tail_awaiters rt a →
         b ∈ dom (awaitable_to_head_node (drain_step rt node rest st))).
Proof.
  intros Hq Hinv.
  destruct (own_q _ _ _ _ _ Hinv node) as [a0 Ha0]; [rewrite Hq; by left|].
  pose proof (owner_tail_awaiters ∅ st tails a0 node Hinv Ha0) as Hbs.
  pose proof (λ a Ha, owner_tail_awaiters ∅ st tails a node Hinv Ha)
    as Hsame.
  assert (Hcur0 : rtc (awaits rt) cur a0).
  { apply (own_reach _ _ _ _ _ Hinv). rewrite <- (own_dom _ _ _ _ _ Hinv).
    apply elem_of_dom. by eexists. }
  unfold drain_step. rewrite Hbs.
  set (st1 := mkDrain (d_heap st) rest _ _).
  assert (Hinv1 : owner_inv rt cur {[node]} st1 tails).
  { destruct Hinv as [Hdom Hsize Htail Hq' Hdone Hreach Hnd].
    rewrite Hq in *. apply NoDup_cons in Hnd as [Hnin Hnd].
    split; cbn; try done.
    - intros r Hr. apply Hq'. by right.
    - intros a r b Ha Hnr Hbusy. apply (Hdone a r b Ha); [|set_solver].
      intros [->|?]%elem_of_cons; [|done]. set_solver. }
  destruct (visit_awaiters_owner {[node]} node (tail_awaiters rt a0) st1
              tails Hinv1)
    as (tails2 & Hinv2 & Hbs2 & Hdom2 & Hsub2 & Hq2 & Hnew2).
  { apply Forall_forall. intros b Hb. by eapply rtc_r. }
  exists tails2.
  assert (Hawaiters : ∀ a b, tails !! a = Some node →
            b ∈ tail_awaiters rt a →
            b ∈ dom (awaitable_to_head_node
                       (foldl (visit_awaiter rt node) st1
                              (tail_awaiters rt a0)))).
  { intros a b Ha Hb. rewrite <- (Hsame a Ha), Hbs in Hb.
    rewrite Forall_forall in Hbs2. by apply Hbs2. }
  split_and!; try done.
  destruct Hinv2 as [Hdom' Hsize' Htail' Hq' Hdone' Hreach' Hnd'].
  split; try done.
  intros a r b Ha Hnr _ Hb.
  destruct (decide (r = node)) as [->|Hne];
    [|apply (Hdone' a r b Ha Hnr); [set_solver | done]].
  destruct (Hnew2 a node Ha) as [Hold|?]; [|done].
  by apply (Hawaiters a).
Qed.

Lemma drain_owner fuel st st' tails :
  drain rt fuel st = Some st' → owner_inv rt cur ∅ st tails →
  ∃ tails', owner_inv rt cur ∅ st' tails'.
Proof.
  revert st tails. induction fuel as [|fuel IH]; intros st tails; cbn;
    destruct (node_q st) as [|node rest] eqn:Hq; try done;
    try (intros [= <-] ?; by exists tails).
  intros Hrun Hinv.
  destruct (drain_step_owner node rest st tails Hq Hinv)
    as (tails1 & Hinv1 & _).
  by apply (IH (drain_step rt node rest st) tails1).
Qed.

Lemma drain_init_owner st0 task_node task_head_node :
  drain_init rt cur = (st0, task_node, task_head_node) →
  owner_inv rt cur ∅ st0 {[cur := task_node]}.
Proof.
  unfold drain_init, call_makeAsyncGraphNodes. intros [= <- <- _].
  split; cbn.
  - by rewrite !dom_singleton_L.
  - rewrite dom_singleton_L, elements_singleton, length_fmap. cbn.
    unfold expansion_size. cbn. lia.
  - intros a r [<- <-]%lookup_singleton_Some. cbn. split; [lia|done].
  - intros r ->%list_elem_of_singleton. exists cur.
    by rewrite lookup_singleton_eq.
  - intros a r b [<- <-]%lookup_singleton_Some Hnq. destruct Hnq. by left.
  - intros a. rewrite dom_singleton_L. by intros ->%elem_of_singleton.
  - apply NoDup_singleton.
Qed.
End owner.

Lemma drain_dom_mono (rt : Runtime) (fuel : nat) (s s' : DrainState) :
  drain rt fuel s = Some s' →
  dom (awaitable_to_head_node s) ⊆ dom (awaitable_to_head_node s').
Proof.
  revert s. induction fuel as [|fuel IH]; intros s; cbn;
    destruct (node_q s) as [|node rest]; try done;
    try (by intros [= <-]).
  intros Hrun. etrans; [|by apply IH]. unfold drain_step.
  generalize (node_get_awaiters rt (d_heap s) node).
  intros bs. set (s1 := mkDrain _ rest _ _).
  change (awaitable_to_head_node s) with (awaitable_to_head_node s1).
  generalize s1. clear. induction bs as [|b bs IH]; intros s1; [done|].
  cbn. etrans; [|apply IH]. unfold visit_awaiter.
  destruct (awaitable_to_head_node s1 !! b); cbn; [done|].
  rewrite dom_insert_L. set_solver.
Qed.

Lemma drain_keeps_current_task (rt : Runtime) (fuel cur : nat)
    (st0 st : DrainState) (task_node task_head_node : nat) :
  drain_init rt cur = (st0, task_node, task_head_node) →
  drain rt fuel st0 = Some st →
  cur ∈ dom (awaitable_to_head_node st).
Proof.
  intros Hinit Hrun.
  destruct (drain_init_wf rt cur st0 _ _ Hinit) as (_ & _ & _ & _ & Hm0).
  apply (drain_dom_mono rt fuel st0 st Hrun).
  rewrite Hm0, dom_singleton_L. set_solver.
Qed.

(** Lines 153-168, which awaitables are expanded.  When the worklist ends,
    the keys of [awaitable_to_head_node] are exactly the awaitables that can
    be reached from the current task by going from an awaitable to one of
    the awaiters read from its expansion: none is left out and no other is
    expanded. *)
Theorem drain_expands_the_reachable_awaitables (rt : Runtime) (fuel : nat)
    (cur : nat) (st0 st : DrainState) (task_node task_head_node : nat)
    (a : nat) :
  drain_init rt cur = (st0, task_node, task_head_node) →
  drain rt fuel st0 = Some st →
  a ∈ dom (awaitable_to_head_node st) ↔ rtc (awaits rt) cur a.
Proof.
  intros Hinit Hrun.
  destruct (drain_owner rt cur fuel st0 st _ Hrun
              (drain_init_owner rt cur st0 _ _ Hinit)) as [tails Hinv].
  destruct (drain_init_wf rt cur st0 _ _ Hinit) as (Hwf0 & _ & _ & _ & Hm0).
  destruct (drain_wf_preserved rt _ _ _ Hrun Hwf0) as (_ & _ & Hq).
  split; [apply (own_reach _ _ _ _ _ Hinv)|].
  pose proof (drain_keeps_current_task rt fuel cur st0 st _ _ Hinit Hrun)
    as Hcur.
  revert a. apply rtc_ind_r; [done|]. intros x y Hx Hxy IH.
  rewrite <- (own_dom _ _ _ _ _ Hinv) in IH.
  apply elem_of_dom in IH as [r Hr].
  apply (own_done _ _ _ _ _ Hinv x r y Hr); [|set_solver|done].
  rewrite Hq. by intros ?%elem_of_nil.
Qed.

Lemma drain_expands_the_reachable_awaitables_witness :
  drain ex_diamond 4 (drain_init ex_diamond 10).1.1
  = Some (ex_drained ex_diamond 4 10)
  ∧ rtc (awaits ex_diamond) 10 13.
Proof.
  assert (Hrun : drain ex_diamond 4 (drain_init ex_diamond 10).1.1
                 = Some (ex_drained ex_diamond 4 10))
    by (vm_compute; reflexivity).
  split; [exact Hrun|].
  apply (drain_expands_the_reachable_awaitables ex_diamond 4 10
           (drain_init ex_diamond 10).1.1 (ex_drained ex_diamond 4 10)
           0 0 13 eq_refl Hrun).
  by_evaluation.
Defined.

(** Line 165 runs once for each key.  When the worklist ends, its store
    holds exactly as many nodes as one call of [makeAsyncGraphNodes]
    constructs for each key of [awaitable_to_head_node], taken once: no
    awaitable has been expanded twice, however many awaitables it awaits. *)
Theorem drain_expands_each_awaitable_once (rt : Runtime) (fuel : nat)
    (cur : nat) (st0 st : DrainState) (task_node task_head_node : nat) :
  drain_init rt cur = (st0, task_node, task_head_node) →
  drain rt fuel st0 = Some st →
  length (d_heap st)
  = sum_list_with (expansion_size rt)
      (elements (dom (awaitable_to_head_node st))).
Proof.
  intros Hinit Hrun.
  destruct (drain_owner rt cur fuel st0 st _ Hrun
              (drain_init_owner rt cur st0 _ _ Hinit)) as [tails Hinv].
  apply (own_size _ _ _ _ _ Hinv).
Qed.

Lemma drain_expands_each_awaitable_once_witness :
  drain ex_diamond 4 (drain_init ex_diamond 10).1.1
  = Some (ex_drained ex_diamond 4 10)
  ∧ length (d_heap (ex_drained ex_diamond 4 10)) = 5.
Proof.
  assert (Hrun : drain ex_diamond 4 (drain_init ex_diamond 10).1.1
                 = Some (ex_drained ex_diamond 4 10))
    by (vm_compute; reflexivity).
  split; [exact Hrun|].
  rewrite (drain_expands_each_awaitable_once ex_diamond 4 10
             (drain_init ex_diamond 10).1.1 (ex_drained ex_diamond 4 10)
             0 0 eq_refl Hrun).
  vm_compute. reflexivity.
Defined.

Section acyclic.
Variables (rt : Runtime) (cur : nat) (rank : nat → nat).
Hypothesis rank_decreases :
  ∀ a b, rtc (awaits rt) cur a → awaits rt a b → rank b < rank a.



End acyclic.




(** * Further properties of async_graph_to_dot *)

Section ids.
Variables (rt : Runtime) (h : list AsyncGraphNode) (head : nat).

Lemma node_id_dense r st :
  ids_dense st →
  ids_dense (node_id r st).2
  ∧ (∀ x, is_Some (node_to_id (node_id r st).2 !! x) →
          x = r ∨ is_Some (node_to_id st !! x)).
Proof.
  intros (Hsize & Hpos & Hall). unfold node_id.
  destruct (node_to_id st !! r) as [i|] eqn:Hr; cbn.
  { split; [done|]. intros x ?. by right. }
  split; [split_and!|]; cbn.
  - rewrite dom_insert_L.
    pose proof (size_union (C:=gset nat) {[r]} (dom (node_to_id st)))
      as Hunion.
    rewrite Hunion by (apply not_elem_of_dom in Hr; set_solver).
    rewrite size_singleton. lia.
  - intros x i. rewrite lookup_insert. case_decide.
    + intros [= <-]. lia.
    + apply Hpos.
  - intros i Hi. destruct (decide (i = next_id st + 1)) as [->|Hne].
    + exists r. by rewrite lookup_insert_eq.
    + destruct (Hall i) as [x Hx]; [lia|]. exists x.
      rewrite lookup_insert_ne; [done|]. intros <-. congruence.
  - intros x. rewrite lookup_insert. case_decide; [by left | by right].
Qed.

Lemma dot_child_dense node st c :
  ids_dense st →
  ids_dense (dot_child node st c)
  ∧ (∀ x, is_Some (node_to_id (dot_child node st c) !! x) →
          x = node ∨ x = c ∨ is_Some (node_to_id st !! x)).
Proof.
  intros Hd. unfold dot_child.
  set (st1 := mkDot _ _ _ _ (c :: q st)).
  assert (Hd1 : ids_dense st1) by done.
  destruct (node_id_dense node st1 Hd1) as [Hd2 Hnew2].
  destruct (node_id node st1) as [i st2]; cbn in *.
  destruct (node_id_dense c st2 Hd2) as [Hd3 Hnew3].
  destruct (node_id c st2) as [j st3]; cbn in *.
  split; [done|]. intros x Hx.
  destruct (Hnew3 x Hx) as [->|Hx2]; [by right; left|].
  destruct (Hnew2 x Hx2) as [->|?]; [by left | by right; right].
Qed.

Lemma dot_children_dense node cs st :
  ids_dense st →
  ids_dense (foldl (dot_child node) st cs)
  ∧ (∀ x, is_Some (node_to_id (foldl (dot_child node) st cs) !! x) →
          x = node ∨ x ∈ cs ∨ is_Some (node_to_id st !! x)).
Proof.
  revert st. induction cs as [|c cs IH]; intros st Hd; cbn [foldl].
  { split; [done|]. intros x ?. by right; right. }
  destruct (dot_child_dense node st c Hd) as [Hd1 Hnew1].
  destruct (IH _ Hd1) as [Hd2 Hnew2]. split; [done|]. intros x Hx.
  destruct (Hnew2 x Hx) as [->|[?|Hx1]];
    [by left | right; left; by right |].
  destruct (Hnew1 x Hx1) as [->|[->|?]];
    [by left | right; left; by left | by right; right].
Qed.

Lemma dot_visit_dense node st :
  ids_dense st →
  ids_dense (dot_visit rt h node st)
  ∧ (∀ x, is_Some (node_to_id (dot_visit rt h node st) !! x) →
          x = node ∨ x ∈ awaited_by_of h node
          ∨ is_Some (node_to_id st !! x)).
Proof.
  intros Hd. unfold dot_visit.
  set (st1 := mkDot _ (seen st ∪ {[node]}) _ _ _).
  assert (Hd1 : ids_dense st1) by done.
  destruct (node_id_dense node st1 Hd1) as [Hd2 Hnew2].
  destruct (node_id node st1) as [i st2]; cbn in *.
  assert (Hd3 : ids_dense (emit (VertexLine i
                  (escape_label (node_str rt h node))) st2)) by done.
  destruct (dot_children_dense node (elements (awaited_by_of h node)) _ Hd3)
    as [Hd4 Hnew4].
  split; [done|]. intros x Hx.
  destruct (Hnew4 x Hx) as [->|[?%elem_of_elements|Hx2]];
    [by left | by right; left |].
  destruct (Hnew2 x Hx2) as [->|?]; [by left | by right; right].
Qed.

Lemma dot_visit_head_first node st :
  ids_wf st →
  node_to_id st = ∅ ∧ next_id st = 0 ∧ graph st = [] ∧ node = head
  ∨ (node_to_id st !! head = Some 1
     ∧ ∃ rest, graph st
               = VertexLine 1 (escape_label (node_str rt h head)) :: rest) →
  head_first rt h head (dot_visit rt h node st).
Proof.
  intros Hwf Hcase. right.
  destruct (dot_visit_spec rt h node st Hwf)
    as (_ & _ & Hsub & _ & _ & _ & Hg).
  destruct Hcase as [(Hm & Hn & Hgr & ->)|(Hid & rest & Hrest)].
  - assert (Hone : node_to_id (dot_visit rt h head st) !! head = Some 1).
    { unfold dot_visit.
      set (st1 := mkDot _ (seen st ∪ {[head]}) _ _ _).
      assert (Hfirst : node_id head st1
                = (1, mkDot (graph st) (seen st ∪ {[head]}) 1
                            (<[head := 1]> (node_to_id st)) (q st))).
      { unfold node_id, st1. cbn. by rewrite Hm, lookup_empty, Hn. }
      rewrite Hfirst.
      match goal with
      | |- node_to_id (foldl _ ?s ?cs) !! _ = _ =>
          destruct (dot_children_spec head cs s) as (_ & _ & Hsub' & _)
      end.
      { split; cbn.
        - intros r r' i. rewrite Hm, !lookup_insert, !lookup_empty.
          repeat case_decide; congruence.
        - intros r i. rewrite Hm, lookup_insert, lookup_empty.
          case_decide; [intros [= <-]; lia | done]. }
      eapply lookup_weaken; [|exact Hsub']. cbn.
      by rewrite lookup_insert_eq. }
    split; [done|]. rewrite Hg, Hgr. unfold node_lines, ids.
    rewrite Hone. cbn [app default]. by eexists.
  - split; [by eapply lookup_weaken|]. rewrite Hg, Hrest.
    rewrite <- app_comm_cons. by eexists.
Qed.

Lemma dot_loop_ids fuel st st' :
  dot_loop rt h fuel st = Some st' →
  ids_wf st → ids_dense st → ids_known st → head_first rt h head st →
  ids_wf st' ∧ ids_dense st' ∧ ids_known st' ∧ head_first rt h head st'.
Proof.
  revert st. induction fuel as [|fuel IH]; intros st; cbn;
    destruct (q st) as [|node rest] eqn:Hq; try done;
    try (by intros [= <-]).
  case_decide as Hnode; intros Hrun Hwf Hd Hk Hh.
  - set (st1 := mkDot _ _ _ _ rest) in *.
    assert (Hne : st ≠ dot_init head).
    { intros ->. cbn in Hnode. set_solver. }
    apply (IH st1 Hrun); try done.
    + intros r Hr. destruct (Hk r Hr) as [?|Hin]; [by left|].
      rewrite Hq in Hin. apply elem_of_cons in Hin as [->|?];
        [by left | by right].
    + right. by destruct Hh as [?|?].
  - set (st1 := mkDot _ _ _ _ rest) in *.
    assert (Hwf1 : ids_wf st1) by done.
    assert (Hd1 : ids_dense st1) by done.
    destruct (dot_visit_spec rt h node st1 Hwf1)
      as (Hs & Hq' & Hsub & Hwf2 & Hid & Hids & Hg).
    destruct (dot_visit_dense node st1 Hd1) as [Hd2 Hnew].
    assert (Hh2 : head_first rt h head (dot_visit rt h node st1)).
    { apply dot_visit_head_first; [done|].
      destruct Hh as [->|?]; [|by right]. left. cbn in Hq.
      by injection Hq as <- <-. }
    apply (IH _ Hrun); try done.
    intros r Hr. rewrite Hs, Hq', elem_of_union, elem_of_singleton,
      elem_of_app, elem_of_reverse, elem_of_elements.
    destruct (Hnew r Hr) as [->|[?|Hold]]; [tauto | tauto |].
    destruct (Hk r Hold) as [?|Hin]; [tauto|].
    rewrite Hq in Hin. apply elem_of_cons in Hin as [->|?]; tauto.
Qed.
End ids.

(** Lines 235-240 through a whole rendering.  When the rendering ends, the
    nodes that have an identifier are exactly the nodes reachable from the
    head; their identifiers are the numbers 1, 2, ... up to the number of
    these nodes, none skipped; the head has identifier 1 and its vertex
    line is the first line of the document. *)
Theorem dot_identifiers_are_one_to_n (rt : Runtime)
    (h : list AsyncGraphNode) (head : nat) :
  ∃ st : DotState,
    (∀ fuel, total_edges h < fuel →
       dot_loop rt h fuel (dot_init head) = Some st)
    ∧ (∀ r, is_Some (node_to_id st !! r) ↔ reachable h head r)
    ∧ next_id st = size (dom (node_to_id st))
    ∧ (∀ r i, node_to_id st !! r = Some i → 1 ≤ i ≤ next_id st)
    ∧ (∀ i, 1 ≤ i ≤ next_id st → ∃ r, node_to_id st !! r = Some i)
    ∧ node_to_id st !! head = Some 1
    ∧ ∃ rest, graph st
              = VertexLine 1 (escape_label (node_str rt h head)) :: rest.
Proof.
  destruct (dot_loop_inv rt h head (S (total_edges h)) (dot_init head) [])
    as (st & order & Hrun & Hinv & Hq).
  { apply dot_inv_init. }
  { unfold dot_measure. cbn. by rewrite pending_empty. }
  exists st.
  pose proof (λ r, dot_inv_final rt h head st order r Hinv Hq) as Hfinal.
  destruct (dot_loop_ids rt h head _ _ _ Hrun)
    as ([_ Hbound] & (Hsize & Hpos & Hall) & Hknown & Hhead).
  { split; intros ? ?; by rewrite ?lookup_empty. }
  { split_and!; cbn.
    - by rewrite dom_empty_L, size_empty.
    - intros r i. by rewrite lookup_empty.
    - intros i Hi. lia. }
  { intros r. cbn. rewrite lookup_empty. by intros [? ?]. }
  { by left. }
  destruct Hhead as [Heq|[Hone Hline]]; [by rewrite Heq in Hq|].
  split_and!; try done.
  - intros fuel Hfuel. eapply dot_loop_more_fuel; [exact Hrun | lia].
  - intros r. rewrite <- Hfinal. split.
    + intros Hr. destruct (Hknown r Hr) as [Hs|Hin].
      * by apply (inv_seen _ _ _ _ _ Hinv).
      * rewrite Hq in Hin. by apply elem_of_nil in Hin.
    + intros Hr. by apply (inv_ids_dom _ _ _ _ _ Hinv).
  - intros r i Hi. split; [by eapply Hpos | by eapply Hbound].
Qed.

Section render_small.
Variables (rt : Runtime) (h : list AsyncGraphNode).

Lemma dot_loop_done fuel st : q st = [] → dot_loop rt h fuel st = Some st.
Proof. intros Hq. destruct fuel; cbn; by rewrite Hq. Qed.

Lemma node_id_known r i st :
  node_to_id st !! r = Some i → node_id r st = (i, st).
Proof. intros Hr. unfold node_id. by rewrite Hr. Qed.

Lemma node_id_fresh r st :
  node_to_id st !! r = None →
  node_id r st
  = (next_id st + 1,
     mkDot (graph st) (seen st) (next_id st + 1)
           (<[r := next_id st + 1]> (node_to_id st)) (q st)).
Proof. intros Hr. unfold node_id. by rewrite Hr. Qed.

(** The rendering from a head that is awaited by nothing. *)
Lemma dot_loop_sink_head head fuel :
  awaited_by_of h head = ∅ →
  graph <$> dot_loop rt h (S fuel) (dot_init head)
  = Some [VertexLine 1 (escape_label (node_str rt h head))].
Proof.
  intros Hsink. unfold dot_init.
  cbn [dot_loop q seen graph next_id node_to_id].
  rewrite decide_False by set_solver.
  unfold dot_visit. rewrite Hsink, elements_empty.
  cbn [q seen graph next_id node_to_id].
  unfold node_id. cbn [q seen graph next_id node_to_id].
  rewrite lookup_empty. cbn [foldl]. by rewrite dot_loop_done.
Qed.
End render_small.

(** Lines 243-254 on a head that is awaited by nothing: with at least one
    round allowed, the document is the opening line, the vertex line of the
    head with identifier 1, and the closing line. *)
Theorem dot_of_a_sink_head (rt : Runtime) (h : list AsyncGraphNode)
    (head fuel : nat) :
  awaited_by_of h head = ∅ →
  0 < fuel →
  async_graph_to_dot rt h fuel head
  = Some ("digraph {" +:+ String newline
            ("  n1 [label=" +:+ String dquote
               (escape_label (node_str rt h head) +:+ String dquote
                  (" shape=box];" +:+ String newline
                     ("}" +:+ String newline EmptyString))))).
Proof.
  intros Hsink Hfuel. destruct fuel as [|fuel]; [lia|].
  pose proof (dot_loop_sink_head rt h head fuel Hsink) as Hlines.
  unfold async_graph_to_dot.
  destruct (dot_loop rt h (S fuel) (dot_init head)) as [st|]; [|done].
  injection Hlines as Hlines. cbn [fmap option_fmap option_map].
  rewrite Hlines. unfold document, line_text. cbn [foldr].
  change (pretty 1) with "1".
  rewrite !string_app_assoc. reflexivity.
Qed.

Lemma dot_of_a_sink_head_witness :
  awaited_by_of ex_quoted_heap 0 = ∅
  ∧ is_Some (async_graph_to_dot ex_idle ex_quoted_heap 1 0).
Proof.
  assert (Hsink : awaited_by_of ex_quoted_heap 0 = ∅) by reflexivity.
  split; [exact Hsink|].
  rewrite (dot_of_a_sink_head ex_idle ex_quoted_heap 0 1 Hsink
             (Nat.lt_0_succ 0)).
  by eexists.
Defined.

Section render_chain.
Variables (rt : Runtime) (h : list AsyncGraphNode).

(** One visit on a straight line: the node [j] wraps [f] and is awaited by
    [cs]; it has identifier [S j] already or gets it now. *)
Lemma dot_visit_chain_node j f cs st :
  h !! j = Some (mkNode (AsyncGraphNodeFrame f) cs) →
  (node_to_id st !! j = Some (S j) ∧ next_id st = S j
   ∨ node_to_id st !! j = None ∧ next_id st = j) →
  dot_visit rt h j st
  = foldl (dot_child j)
      (mkDot (graph st ++ [VertexLine (S j) (escape_label (f_str f))])
             (seen st ∪ {[j]}) (S j) (<[j := S j]> (node_to_id st)) (q st))
      (elements cs).
Proof.
  intros Hj Hid. unfold dot_visit, awaited_by_of, node_str. rewrite Hj. cbn.
  destruct Hid as [[Hsome Hnext]|[Hnone Hnext]].
  - rewrite node_id_known with (i := S j) by done. unfold emit. cbn.
    by rewrite Hnext, (insert_id _ _ _ Hsome).
  - rewrite node_id_fresh by done. unfold emit. cbn.
    by rewrite Hnext, Nat.add_1_r.
Qed.

Lemma dot_loop_chain fs j st fuel :
  (∀ i f, fs !! i = Some f →
     h !! (j + i)
     = Some (mkNode (AsyncGraphNodeFrame f)
               (if decide (S i < length fs) then {[S (j + i)]} else ∅))) →
  fs ≠ [] →
  q st = [j] →
  (∀ r, j ≤ r → r ∉ seen st) →
  (∀ r, j < r → node_to_id st !! r = None) →
  (node_to_id st !! j = Some (S j) ∧ next_id st = S j
   ∨ node_to_id st !! j = None ∧ next_id st = j) →
  length fs ≤ fuel →
  ∃ st', dot_loop rt h fuel st = Some st'
         ∧ graph st' = graph st ++ chain_lines (S j) fs.
Proof.
  revert j st fuel. induction fs as [|f fs IH];
    intros j st fuel Hnodes Hne Hq Hseen Hids Hid Hfuel; [done|].
  destruct fuel as [|fuel]; [cbn in Hfuel; lia|].
  cbn [dot_loop]. rewrite Hq, decide_False by (by apply Hseen).
  pose proof (Hnodes 0 f eq_refl) as Hj. rewrite Nat.add_0_r in Hj.
  rewrite (dot_visit_chain_node j f _ _ Hj) by done.
  cbn [graph seen next_id node_to_id q length] in *.
  destruct fs as [|f' fs].
  - rewrite decide_False by (cbn; lia). rewrite elements_empty.
    cbn [foldl]. rewrite dot_loop_done by done. by eexists.
  - rewrite decide_True by (cbn; lia). rewrite elements_singleton.
    cbn [foldl]. unfold dot_child. cbn [graph seen next_id node_to_id q].
    rewrite node_id_known with (i := S j)
      by (cbn; by rewrite lookup_insert_eq).
    rewrite node_id_fresh
      by (cbn; rewrite lookup_insert_ne by lia; apply Hids; lia).
    unfold emit. cbn [graph seen next_id node_to_id q].
    rewrite Nat.add_1_r.
    edestruct (IH (S j)) as (st' & Hrun & Hgraph); last first.
    { exists st'. split; [exact Hrun|]. rewrite Hgraph.
      cbn [graph chain_lines]. by rewrite <- !(assoc_L (++)). }
    + cbn in Hfuel. cbn. lia.
    + left. cbn. by rewrite lookup_insert_eq.
    + intros r Hr. cbn. rewrite !lookup_insert_ne by lia.
      apply Hids. lia.
    + intros r Hr. cbn. apply not_elem_of_union. split; [apply Hseen; lia|].
      apply not_elem_of_singleton. lia.
    + done.
    + done.
    + intros i g Hi. specialize (Hnodes (S i) g Hi).
      replace (j + S i) with (S j + i) in Hnodes by lia.
      rewrite Hnodes. do 2 f_equal. cbn [length].
      repeat case_decide; done || lia.
Qed.
End render_chain.

(** Lines 133-141 followed by lines 229-254.  The graph of the fallback mode,
    rendered from the head it returns, is a straight line: with at least as
    many rounds as the stack has frames, the document has for each frame, in
    order from the caller outwards, a vertex line whose label is the text of
    the frame and whose identifier is the position of the frame counted
    from 1, followed by the edge line to the next frame when there is
    one. *)
Theorem fallback_graph_renders_as_a_chain (rt : Runtime) (fuel fuel' : nat)
    (frame : Frame) :
  current_task rt = None →
  length (frame_chain frame) ≤ fuel' →
  ∃ h : list AsyncGraphNode,
    get_async_graph rt fuel frame = Returned (h, Some 0)
    ∧ async_graph_to_dot rt h fuel' 0
      = Some (document (chain_lines 1 (frame_chain frame))).
Proof.
  intros Hmode Hfuel. exists (chain_nodes 0 (frame_chain frame)). split.
  { unfold get_async_graph. rewrite Hmode. unfold fallback, new_node.
    by rewrite (fallback_walk_chain frame []). }
  destruct (dot_loop_chain rt (chain_nodes 0 (frame_chain frame))
              (frame_chain frame) 0 (dot_init 0) fuel')
    as (st & Hrun & Hgraph); try done.
  - intros i f Hi. by apply chain_nodes_lookup.
  - by destruct frame as [? ? [?|]].
  - by right.
  - unfold async_graph_to_dot. rewrite Hrun. cbn. by rewrite Hgraph.
Qed.

Lemma fallback_graph_renders_as_a_chain_witness :
  current_task ex_idle = None
  ∧ ∃ h, get_async_graph ex_idle 0 ex_caller = Returned (h, Some 0)
         ∧ async_graph_to_dot ex_idle h 4 0
           = Some (document (chain_lines 1 (frame_chain ex_caller))).
Proof.
  split; [reflexivity|].
  apply (fallback_graph_renders_as_a_chain ex_idle 0 4 ex_caller eq_refl).
  vm_compute. lia.
Defined.

(** * One task and its stack *)

Section lone_task.
Variables (rt : Runtime) (cur : nat).

Lemma drain_init_unfold :
  drain_init rt cur
  = (mkDrain (relocate 0 <$> sg_nodes (makeAsyncGraphNodes rt cur)) [0] ∅
             {[cur := sg_head (makeAsyncGraphNodes rt cur)
                       `min` length (sg_rest (makeAsyncGraphNodes rt cur))]},
     0, sg_head (makeAsyncGraphNodes rt cur)
        `min` length (sg_rest (makeAsyncGraphNodes rt cur))).
Proof. reflexivity. Qed.

Lemma drain_lone fuel :
  tail_awaiters rt cur = [] →
  drain rt (S fuel) (drain_init rt cur).1.1
  = Some (mkDrain (relocate 0 <$> sg_nodes (makeAsyncGraphNodes rt cur)) []
                  {[0]}
                  {[cur := sg_head (makeAsyncGraphNodes rt cur)
                            `min` length
                                    (sg_rest (makeAsyncGraphNodes rt cur))]}).
Proof.
  intros Hnone. rewrite drain_init_unfold. cbn [fst drain node_q].
  unfold drain_step. cbn [d_heap terminal_async_nodes awaitable_to_head_node].
  assert (Hread : node_get_awaiters rt
            (relocate 0 <$> sg_nodes (makeAsyncGraphNodes rt cur)) 0 = [])
    by exact Hnone.
  rewrite Hread. cbn [foldl length]. rewrite decide_True by done.
  rewrite (left_id_L ∅ (∪)). by destruct fuel.
Qed.
End lone_task.



Section docstring.
Variables (rt : Runtime) (cur : nat) (exit : Frame).
Hypothesis Hmk : makeAsyncGraphNodes rt cur = task_nodes cur exit.
Hypothesis Hnone : get_awaiters rt cur = [].

Lemma lone_task_store :
  relocate 0 <$> sg_nodes (makeAsyncGraphNodes rt cur)
  = [mkNode (AsyncGraphNodeAsyncGraphAwaitable cur) ∅;
     mkNode (AsyncGraphNodeFrame exit) {[0]}].
Proof.
  rewrite Hmk. cbn. unfold relocate; cbn.
  by rewrite set_map_empty, set_map_singleton_L.
Qed.

Lemma lone_task_graph fuel frame fe f1 p ps entry :
  current_task rt = Some cur →
  frame_chain frame = (p :: ps) ++ frame_chain fe →
  (∀ f, f ∈ p :: ps → f_id f ≠ f_id exit) →
  f_id fe = f_id exit →
  cr_frame rt cur = Some entry →
  f_id entry = f_id fe →
  f_back fe = Some f1 →
  get_async_graph rt (S fuel) frame
  = Returned
      (add_awaited_by
         (add_awaited_by
            ([mkNode (AsyncGraphNodeAsyncGraphAwaitable cur) ∅;
              mkNode (AsyncGraphNodeFrame exit) {[0]}]
               ++ chain_nodes 2 (p :: ps))
            (2 + length ps) 1)
         0 (3 + length ps)
         ++ chain_nodes (3 + length ps) (frame_chain f1),
       Some 2).
Proof.
  intros Hmode Hchain Hne Hfe Hentry Hid Hback.
  unfold get_async_graph, cooperative. rewrite Hmode, drain_init_unfold.
  assert (Hread : tail_awaiters rt cur = []).
  { unfold tail_awaiters. rewrite Hmk. exact Hnone. }
  pose proof (drain_lone rt cur fuel Hread) as Hrun.
  rewrite drain_init_unfold in Hrun. cbn [fst] in Hrun. rewrite Hrun.
  cbn [terminal_async_nodes d_heap]. rewrite size_singleton.
  rewrite decide_True by lia. rewrite lone_task_store, Hmk.
  cbn [task_nodes sg_head sg_rest length Nat.min].
  unfold top_graft. cbn [lookup list_lookup fmap option_fmap option_map kind].
  rewrite (frame_chain_unfold fe) in Hchain.
  rewrite (top_loop_found exit fe _ p ps frame _ _ Hchain Hfe Hne).
  cbn [g_heap g_head_node g_tail_node g_frame length mbind option_bind].
  assert (Hsearch : entry_search (cr_frame rt cur) fe = Some f1).
  { rewrite Hentry. destruct fe as [i s back]; cbn in *.
    rewrite bool_decide_eq_true_2 by congruence. exact Hback. }
  rewrite Hsearch. cbn [bottom_graft].
  rewrite bottom_loop_shape.
  - rewrite elements_singleton. unfold fan_in; cbn [foldl].
    rewrite add_awaited_by_length, length_app, chain_nodes_length.
    cbn [length]. done.
  - intros t ->%elem_of_singleton.
    rewrite add_awaited_by_length, length_app. cbn [length]. lia.
Qed.
End docstring.

(** Lines 105-121, the example of the docstring.  The current task expands
    to a frame node for its coroutine awaited by the node of the task, and
    nothing awaits the task.  The caller's stack reaches the frame of the
    coroutine after the frames [p :: ps], and the coroutine's frame has a
    caller [f1].  Then the call returns the node of the caller's own frame
    and the graph is one path: the frames [p :: ps] in order, then the frame
    of the coroutine, then the task, then the frames from [f1] to the entry
    point, each node awaited by exactly the next one and the last by
    nothing. *)
Theorem lone_task_graph_is_one_path (rt : Runtime) (fuel : nat) (cur : nat)
    (frame exit fe f1 p entry : Frame) (ps : list Frame) :
  current_task rt = Some cur →
  makeAsyncGraphNodes rt cur = task_nodes cur exit →
  get_awaiters rt cur = [] →
  frame_chain frame = (p :: ps) ++ frame_chain fe →
  (∀ f, f ∈ p :: ps → f_id f ≠ f_id exit) →
  f_id fe = f_id exit →
  cr_frame rt cur = Some entry →
  f_id entry = f_id fe →
  f_back fe = Some f1 →
  ∃ h, get_async_graph rt (S fuel) frame = Returned (h, Some 2)
    ∧ length h = 3 + length ps + length (frame_chain f1)
    ∧ (∀ i f, (p :: ps) !! i = Some f →
         h !! (2 + i)
         = Some (mkNode (AsyncGraphNodeFrame f)
                   {[if decide (i < length ps) then 3 + i else 1]}))
    ∧ h !! 1 = Some (mkNode (AsyncGraphNodeFrame exit) {[0]})
    ∧ h !! 0 = Some (mkNode (AsyncGraphNodeAsyncGraphAwaitable cur)
                            {[3 + length ps]})
    ∧ (∀ j f, frame_chain f1 !! j = Some f →
         h !! (3 + length ps + j)
         = Some (mkNode (AsyncGraphNodeFrame f)
                   (if decide (S j < length (frame_chain f1))
                    then {[4 + length ps + j]} else ∅))).
Proof.
  intros Hmode Hmk Hnone Hchain Hne Hfe Hentry Hid Hback.
  eexists. split.
  { exact (lone_task_graph rt cur exit Hmk Hnone fuel frame fe f1 p ps entry
             Hmode Hchain Hne Hfe Hentry Hid Hback). }
  set (h0 := [mkNode (AsyncGraphNodeAsyncGraphAwaitable cur) ∅;
              mkNode (AsyncGraphNodeFrame exit) {[0]}]).
  assert (Hlen : length (chain_nodes 2 (p :: ps)) = S (length ps))
    by apply chain_nodes_length.
  assert (Hlen1 : length (add_awaited_by
            (add_awaited_by (h0 ++ chain_nodes 2 (p :: ps))
               (2 + length ps) 1) 0 (3 + length ps)) = 3 + length ps).
  { rewrite !add_awaited_by_length, length_app, Hlen. cbn. lia. }
  split_and!.
  - rewrite length_app, Hlen1, chain_nodes_length. lia.
  - intros i f Hi. pose proof (lookup_lt_Some _ _ _ Hi) as Hlt.
    cbn [length] in Hlt.
    pose proof (chain_nodes_lookup 2 (p :: ps) i f Hi) as Hnode.
    cbn [length] in Hnode.
    rewrite lookup_app_l by (rewrite Hlen1; lia).
    unfold add_awaited_by. rewrite list_lookup_alter_ne by lia.
    destruct (decide (i = length ps)) as [->|Hi'].
    + rewrite list_lookup_alter_eq. rewrite lookup_app_r by (cbn; lia).
      replace (2 + length ps - length h0) with (length ps) by (cbn; lia).
      rewrite Hnode. rewrite !decide_False by lia. cbn.
      unfold add_edge; cbn. by rewrite (left_id_L ∅ (∪)).
    + rewrite list_lookup_alter_ne by lia.
      rewrite lookup_app_r by (cbn; lia).
      replace (2 + i - length h0) with i by (cbn; lia).
      rewrite Hnode. rewrite !decide_True by lia. done.
  - rewrite lookup_app_l by (rewrite Hlen1; lia).
    unfold add_awaited_by. rewrite !list_lookup_alter_ne by lia. done.
  - rewrite lookup_app_l by (rewrite Hlen1; lia).
    unfold add_awaited_by. rewrite list_lookup_alter_eq.
    rewrite list_lookup_alter_ne by lia. cbn.
    unfold add_edge; cbn. by rewrite (left_id_L ∅ (∪)).
  - intros j f Hj. rewrite lookup_app_r by (rewrite Hlen1; lia).
    rewrite Hlen1.
    replace (3 + length ps + j - (3 + length ps)) with j by lia.
    rewrite (chain_nodes_lookup _ _ _ _ Hj).
    done.
Qed.

Lemma lone_task_graph_is_one_path_witness :
  ∃ h, get_async_graph ex_docstring 1 ex_caller = Returned (h, Some 2)
     ∧ length h = 5
     ∧ h !! 0 = Some (mkNode (AsyncGraphNodeAsyncGraphAwaitable 10) {[3]}).
Proof.
  assert (Hne : ∀ f, f ∈ [ex_caller] → f_id f ≠ f_id ex_coro).
  { intros f Hf.
    repeat (apply elem_of_cons in Hf as [->|Hf]; [vm_compute; lia|]).
    by apply elem_of_nil in Hf. }
  destruct (lone_task_graph_is_one_path ex_docstring 0 10 ex_caller ex_coro
              ex_coro ex_run ex_caller ex_coro [] eq_refl eq_refl eq_refl
              eq_refl Hne eq_refl eq_refl eq_refl eq_refl)
    as (h & Hret & Hlen & _ & _ & Htask & _).
  exists h. split; [exact Hret|]. split; [exact Hlen|exact Htask].
Defined.

End AsyncGraph.
